(** * candid-captions: the bounded-concurrency runner and its collaborators

    A shallow embedding of [src/parallelProcessor.ts], [src/imageProcessor.ts],
    [src/captionGenerator.ts] and of the metadata-context part of
    [src/index.ts], followed by the properties the specification states
    about them.

    JavaScript is single threaded and runs every synchronous segment of an
    [async] function to completion.  An [async] function is therefore
    embedded as its synchronous segments (the code between two [await]s);
    each segment is a pure function on an explicit state, and the event loop
    is a schedule: a list of events, each of which resumes one suspended
    segment.  Every order in which the event loop can resume the segments is
    a schedule, so a property proved for all schedules holds for all
    completion orders. *)

From Stdlib Require Import ZArith Lia Ascii.
From stdpp Require Import base option list strings.

Open Scope Z_scope.

(** ** JavaScript arrays and values *)

Module Js.

(** A JavaScript array whose slots may be holes: [None] is a hole. *)
Abbreviation array A := (list (option A)) (only parsing).

(** [arr[i] = v].  Inside the array the slot is overwritten; past its end
    the array is extended with holes up to [i] (JavaScript never raises
    here). *)
Definition array_set {A} (i : nat) (v : A) (arr : array A) : array A :=
  if decide (i < length arr)%nat
  then <[i := Some v]> arr
  else arr ++ replicate (i - length arr) None ++ [Some v].

(** [arr[i]]: [None] stands for [undefined] (a hole, or past the end). *)
Definition array_get {A} (arr : array A) (i : nat) : option A :=
  mjoin (arr !! i).

(** Truthiness of a string: only the empty string is falsy. *)
Definition truthy (s : string) : bool :=
  match s with EmptyString => false | String _ _ => true end.

(** [if (v)] on an optional value ([None] is [undefined]), given the
    truthiness of the values that are present. *)
Definition truthy_opt {A} (t : A → bool) (v : option A) : bool :=
  match v with Some a => t a | None => false end.

(** [a || b]: the left operand when it is truthy, else the right one. *)
Definition or_else {A} (t : A → bool) (a b : option A) : option A :=
  if truthy_opt t a then a else b.

(** [a ?? b]: the left operand unless it is [undefined]. *)
Definition nullish_else {A} (a b : option A) : option A :=
  match a with
  | Some _ => a
  | None => b
  end.

(** [arr.join(sep)] on an array of strings. *)
Fixpoint join (sep : string) (l : list string) : string :=
  match l with
  | [] => ""
  | x :: rest =>
      match rest with
      | [] => x
      | _ :: _ => x +:+ sep +:+ join sep rest
      end
  end.

End Js.

(** ** [src/parallelProcessor.ts] *)

Module ParallelProcessor.
Section processor.

(** [T] are the work items, [R] the values an operation fulfils with and
    [E] the values it throws or rejects with. *)
Context {T R E : Type}.

(** One element of the array [process] returns:
    [{ item: T; result?: R; error?: Error }]. *)
Record Outcome := mkOutcome {
  item : T;
  result : option R;
  error : option E;
}.

(** What one call [processor(item)] does.  It throws before returning a
    promise, or it returns a promise that is later fulfilled, later
    rejected, or never settled.  When the promise settles is not part of
    the behaviour: the schedule decides it. *)
Inductive Behaviour :=
| Throws (e : E)
| Fulfils (r : R)
| Rejects (e : E)
| Hangs.

(** Where the closure built for one item stands.
    - [Unsubmitted]: [items.map] has not reached the item yet;
    - [Queued]: its [run] thunk sits in [this.queue];
    - [Running]: [run] has called [fn], which awaits [processor(item)];
    - [Recorded]: [fn] has stored the outcome and returned; [run] is
      suspended at [await fn()];
    - [Done]: the [finally] block of [run] has called [resolve()]. *)
Inductive Phase := Unsubmitted | Queued | Running | Recorded | Done.

(** The fields of the instance ([activeCount], [queue]), the local
    [results] of the [process] call, and the control point of every
    closure.  A queued [run] thunk is represented by what it captured:
    the index and the item.  [started] is a ghost log of the calls of
    [processor], in the order they were made. *)
Record State := mkState {
  activeCount : Z;
  queue : list (nat * T);
  results : Js.array Outcome;
  phase : list Phase;
  started : list (nat * T);
}.

(** The promise returned by [process]. *)
Inductive Promise :=
| Pending
| Fulfilled (v : Js.array Outcome)
| Rejected (e : E).

(** The constructor (lines 6-8): the limit is stored as it is given, 4
    when it is left out.  Limits are taken to be integers, as the callers
    in [src/index.ts] produce them. *)
Definition constructor (concurrency : option Z) : Z := default 4 concurrency.

(** [this.concurrency], the argument [items] and the argument
    [processor]; the index lets the same item behave differently at two
    positions.  The operation is taken not to call back into the instance
    it runs on, and the instance to serve one [process] call at a time. *)
Variable concurrency : Z.
Variable items : list T.
Variable processor : nat → T → Behaviour.

Definition set_activeCount (c : Z) (st : State) : State :=
  mkState c (queue st) (results st) (phase st) (started st).

Definition set_queue (q : list (nat * T)) (st : State) : State :=
  mkState (activeCount st) q (results st) (phase st) (started st).

Definition set_phase (i : nat) (p : Phase) (st : State) : State :=
  mkState (activeCount st) (queue st) (results st) (<[i := p]> (phase st))
          (started st).

Definition log_start (i : nat) (x : T) (st : State) : State :=
  mkState (activeCount st) (queue st) (results st) (phase st)
          (started st ++ [(i, x)]).

(** [results[index] = o] (lines 21 and 23). *)
Definition record (i : nat) (o : Outcome) (st : State) : State :=
  mkState (activeCount st) (queue st) (Js.array_set i o (results st))
          (phase st) (started st).

Definition success (x : T) (r : R) : Outcome := mkOutcome x (Some r) None.
Definition failure (x : T) (e : E) : Outcome := mkOutcome x None (Some e).

(** The first segment of [fn] (lines 19-20, and 22-24 when the call
    throws): [processor(item)] is called; a synchronous throw is caught
    at once and stored, otherwise [fn] suspends on the promise. *)
Definition fn_call (i : nat) (x : T) (st : State) : State :=
  match processor i x with
  | Throws e => set_phase i Recorded (record i (failure x e) st)
  | Fulfils _ | Rejects _ | Hangs => set_phase i Running st
  end.

(** The first segment of [run] (lines 35-37): [this.activeCount++], then
    [fn()] up to its first suspension. *)
Definition run (i : nat) (x : T) (st : State) : State :=
  fn_call i x (log_start i x (set_activeCount (activeCount st + 1) st)).

(** [enqueue] (lines 48-52): the executor of the new promise either runs
    the thunk or pushes it on the queue. *)
Definition enqueue (i : nat) (x : T) (st : State) : State :=
  if activeCount st <? concurrency
  then run i x st
  else set_phase i Queued (set_queue (queue st ++ [(i, x)]) st).

(** The pairs [(index, item)] that [items.map] visits, in order. *)
Definition tasks : list (nat * T) := imap pair items.

(** A fresh instance (lines 3-4) entering [process] (line 14). *)
Definition init : State :=
  mkState 0 [] [] (replicate (length items) Unsubmitted) [].

Definition enqueue_task (st : State) (t : nat * T) : State :=
  enqueue t.1 t.2 st.

(** The state after [items.map] has called [enqueue] for the first [m]
    items. *)
Definition submit_prefix (m : nat) : State :=
  foldl enqueue_task init (take m tasks).

(** The synchronous part of [process] (lines 14-27): the whole of
    [items.map]; [process] then suspends on [Promise.all]. *)
Definition submit : State := foldl enqueue_task init tasks.

(** The event loop resumes a suspended segment:
    - [Settle i]: the promise returned by [processor(items[i])] has
      settled and [fn] resumes after its [await];
    - [Finish i]: the promise of [fn] is fulfilled and [run] resumes in
      its [finally] block. *)
Inductive Event := Settle (i : nat) | Finish (i : nat).

(** The second segment of [fn] (line 21, or line 23 on rejection). *)
Definition settle (i : nat) (st : State) : option State :=
  match phase st !! i, items !! i with
  | Some Running, Some x =>
      match processor i x with
      | Fulfils r => Some (set_phase i Recorded (record i (success x r) st))
      | Rejects e => Some (set_phase i Recorded (record i (failure x e) st))
      | Throws _ | Hangs => None
      end
  | _, _ => None
  end.

(** [this.queue.shift()] followed by [next?.()] (lines 40-43). *)
Definition run_next (st : State) : State :=
  match queue st with
  | [] => st
  | (j, y) :: q => run j y (set_queue q st)
  end.

(** The [finally] block of [run] (lines 39-44). *)
Definition finish (i : nat) (st : State) : option State :=
  match phase st !! i with
  | Some Recorded =>
      Some (set_phase i Done
              (run_next (set_activeCount (activeCount st - 1) st)))
  | _ => None
  end.

(** One turn of the event loop; [None] when the event cannot happen in
    this state. *)
Definition step (ev : Event) (st : State) : option State :=
  match ev with
  | Settle i => settle i st
  | Finish i => finish i st
  end.

Fixpoint exec (sched : list Event) (st : State) : option State :=
  match sched with
  | [] => Some st
  | ev :: sched' =>
      match step ev st with
      | Some st' => exec sched' st'
      | None => None
      end
  end.

(** The state a [process] call on a fresh instance is in after the event
    loop has run the schedule. *)
Definition execution (sched : list Event) : option State :=
  exec sched submit.

Definition is_done (p : Phase) : bool :=
  match p with Done => true | _ => false end.

(** [Promise.all] over the promises of [enqueue]: fulfilled once every
    one of them is. *)
Definition all_resolved (st : State) : bool := forallb is_done (phase st).

(** The promise of [process] (lines 16-29).  The promises of [enqueue]
    only ever receive [resolve], and [fn] catches whatever [processor]
    throws, so nothing produces [Rejected]. *)
Definition process_promise (st : State) : Promise :=
  if all_resolved st then Fulfilled (results st) else Pending.

(** [process], seen from its caller: the state of the promise it returned
    once the event loop has run the schedule; [None] when the schedule
    cannot happen. *)
Definition process (sched : list Event) : option Promise :=
  process_promise <$> execution sched.

(** The outcome the code stores for one item, if its operation ends. *)
Definition outcome_of (i : nat) (x : T) : option Outcome :=
  match processor i x with
  | Throws e | Rejects e => Some (failure x e)
  | Fulfils r => Some (success x r)
  | Hangs => None
  end.

(** Ghost measures on the control points. *)
Definition is_active (p : Phase) : bool :=
  match p with Running | Recorded => true | _ => false end.

Definition is_running (p : Phase) : bool :=
  match p with Running => true | _ => false end.

Definition is_begun (p : Phase) : bool :=
  match p with Running | Recorded | Done => true | _ => false end.

Fixpoint count (f : Phase → bool) (l : list Phase) : nat :=
  match l with
  | [] => 0
  | p :: l' => ((if f p then 1 else 0) + count f l')%nat
  end.

(** Operations whose promise is outstanding. *)
Definition executing (st : State) : nat := count is_running (phase st).

(** Events still to come, at most: two per closure that has not recorded
    its outcome, one per recorded closure. *)
Definition weight (p : Phase) : nat :=
  match p with
  | Unsubmitted | Queued | Running => 2
  | Recorded => 1
  | Done => 0
  end.

Fixpoint remaining (l : list Phase) : nat :=
  match l with
  | [] => 0
  | p :: l' => (weight p + remaining l')%nat
  end.

(** The same operation, except that the call at index [j] behaves as
    [b]. *)
Definition with_behaviour (j : nat) (b : Behaviour) (i : nat) (x : T)
    : Behaviour :=
  if decide (i = j) then b else processor i x.

(** The control point [run] leaves a closure at. *)
Definition begun_phase (i : nat) (x : T) : Phase :=
  match processor i x with
  | Throws _ => Recorded
  | Fulfils _ | Rejects _ | Hangs => Running
  end.

(** The invariant of the runner while the first [m] items have been
    handed to [enqueue].  The calls made so far followed by the waiting
    thunks are the first [m] tasks in submission order; the control points
    agree with that split; [activeCount] counts the closures between their
    start and their [finally] block; a thunk only waits while every slot
    is taken; and the slots of [results] hold exactly the outcomes of the
    closures that have recorded one. *)
Record Inv (m : nat) (st : State) : Prop := mkInv {
  inv_m : (m ≤ length items)%nat;
  inv_order : started st ++ queue st = take m tasks;
  inv_len : length (phase st) = length items;
  inv_phase : ∀ i p, phase st !! i = Some p →
    if decide (i < length (started st))%nat then is_begun p = true
    else if decide (i < m)%nat then p = Queued else p = Unsubmitted;
  inv_count : activeCount st = Z.of_nat (count is_active (phase st));
  inv_full : queue st ≠ [] → concurrency ≤ activeCount st;
  inv_bound : activeCount st ≤ Z.max concurrency 0;
  inv_reslen : (length (results st) ≤ length items)%nat;
  inv_res : ∀ i x p, items !! i = Some x → phase st !! i = Some p →
    match p with
    | Recorded | Done =>
        ∃ o, outcome_of i x = Some o ∧ Js.array_get (results st) i = Some o
    | Running =>
        (∀ e, processor i x ≠ Throws e) ∧ Js.array_get (results st) i = None
    | Unsubmitted | Queued => Js.array_get (results st) i = None
    end;
}.

End processor.

Arguments Outcome : clear implicits.
Arguments Behaviour : clear implicits.
Arguments State : clear implicits.
Arguments Promise : clear implicits.

End ParallelProcessor.

(** A run of three files with two slots, where the second operation
    rejects and the operations end in the order second, third, first. *)
Module Scenario.
Import ParallelProcessor.

Definition items : list string := ["a.jpg"; "b.jpg"; "c.jpg"].

Definition processor (i : nat) (x : string) : Behaviour string string :=
  match i with
  | 1%nat => Rejects ("cannot caption " +:+ x)
  | _ => Fulfils ("caption of " +:+ x)
  end.

Definition schedule : list Event :=
  [Settle 1; Finish 1; Settle 2; Settle 0; Finish 0; Finish 2]%nat.

(** The only complete schedule when there is one slot. *)
Definition serial_schedule : list Event :=
  [Settle 0; Finish 0; Settle 1; Finish 1; Settle 2; Finish 2]%nat.

Definition final : State string string string :=
  mkState 0 []
    [Some (success "a.jpg" "caption of a.jpg");
     Some (failure "b.jpg" "cannot caption b.jpg");
     Some (success "c.jpg" "caption of c.jpg")]
    [Done; Done; Done]
    [(0%nat, "a.jpg"); (1%nat, "b.jpg"); (2%nat, "c.jpg")].

End Scenario.

(** ** Thrown values, fallible steps and the external tool *)

Module Effect.

(** A thrown JavaScript value, as far as the code looks at it:
    [error instanceof Error], [error.message], [String(error)] and
    [error.stderr]. *)
Record thrown := mkThrown {
  is_Error : bool;
  message : string;
  as_string : string;
  stderr : option string;
}.

(** [new Error(msg)]. *)
Definition new_Error (msg : string) : thrown :=
  mkThrown true msg ("Error: " +:+ msg) None.

Inductive result (A : Type) :=
| Ok (a : A)
| Throw (e : thrown).
Arguments Ok {A} a.
Arguments Throw {A} e.

(** One [execFile(file, args)]. *)
Record call := mkCall {
  file : string;
  args : list string;
}.

(** A computation that may start subprocesses: it extends the trace of
    the calls made so far and returns or throws. *)
Definition io (A : Type) : Type := list call → result A * list call.

Definition io_ret {A} (a : A) : io A := λ tr, (Ok a, tr).

Definition io_throw {A} (e : thrown) : io A := λ tr, (Throw e, tr).

Definition io_bind {A B} (m : io A) (k : A → io B) : io B :=
  λ tr, match m tr with
        | (Ok a, tr') => k a tr'
        | (Throw e, tr') => (Throw e, tr')
        end.

(** [try { m } catch (error) { h error }]. *)
Definition try_catch {A} (m : io A) (h : thrown → io A) : io A :=
  λ tr, match m tr with
        | (Ok a, tr') => (Ok a, tr')
        | (Throw e, tr') => h e tr'
        end.

(** Lifting a step that starts no subprocess. *)
Definition lift {A} (r : result A) : io A := λ tr, (r, tr).

#[export] Instance io_mret : MRet io := @io_ret.
#[export] Instance io_mbind : MBind io := λ A B k m, io_bind m k.

(** The value a computation started with an empty trace ends with, and
    the calls it made. *)
Definition outcome {A} (m : io A) : result A := (m []).1.
Definition calls {A} (m : io A) : list call := (m []).2.

Definition nl : string := String (Ascii.ascii_of_nat 10) EmptyString.
Definition dq : string := String (Ascii.ascii_of_nat 34) EmptyString.

End Effect.

(** ** [src/imageProcessor.ts] and its earlier, untyped form *)

Module Json.

(** What [JSON.parse] returns.  The code never looks inside a number. *)
#[warnings="-register-all"] Inductive json :=
| JNull
| JBool (b : bool)
| JNum (n : Z)
| JStr (s : string)
| JArr (l : list json)
| JObj (fields : list (string * json)).

(** An own property of an object; [None] is [undefined]. *)
Fixpoint field (k : string) (fields : list (string * json)) : option json :=
  match fields with
  | [] => None
  | (k', v) :: rest => if decide (k = k') then Some v else field k rest
  end.

(** [v[0]]: reading a property of [null] throws a [TypeError]; an array
    yields its first element, a string its first character, an object
    its property named 0, and a boolean or a number nothing. *)
Definition index0 (v : json) : Effect.result (option json) :=
  match v with
  | JNull =>
      Effect.Throw
        (Effect.mkThrown true
           "Cannot read properties of null (reading '0')"
           "TypeError: Cannot read properties of null (reading '0')" None)
  | JArr l => Effect.Ok (l !! 0%nat)
  | JStr (String c _) => Effect.Ok (Some (JStr (String c EmptyString)))
  | JStr EmptyString => Effect.Ok None
  | JObj fields => Effect.Ok (field "0" fields)
  | JBool _ | JNum _ => Effect.Ok None
  end.

(** Truthiness of a parsed value. *)
Definition truthy (v : json) : bool :=
  match v with
  | JNull => false
  | JBool b => b
  | JNum n => negb (n =? 0)
  | JStr s => Js.truthy s
  | JArr _ | JObj _ => true
  end.

End Json.

Module ImageProcessor.
Import Effect Json.

(** The type of [Keywords] and [Subject]:
    [z.union([z.string(), z.array(z.string())])]. *)
Inductive tag_value :=
| TagString (s : string)
| TagArray (l : list string).

(** [ExifMetadata] (lines 9-19): the five declared fields, each optional,
    and whatever other properties the loose schema lets through. *)
Record ExifMetadata := mkExif {
  Caption_Abstract : option string;
  Description : option string;
  ImageDescription : option string;
  Keywords : option tag_value;
  Subject : option tag_value;
  others : list (string * json);
}.

(** The object literal [{}]. *)
Definition empty : ExifMetadata := mkExif None None None None None [].

Definition zod_error : thrown :=
  mkThrown true "Invalid input" "ZodError: Invalid input" None.

(** [z.string().optional()] on a property. *)
Definition parse_string (v : option json) : result (option string) :=
  match v with
  | None => Ok None
  | Some (JStr s) => Ok (Some s)
  | Some _ => Throw zod_error
  end.

Fixpoint parse_strings (l : list json) : result (list string) :=
  match l with
  | [] => Ok []
  | JStr s :: rest =>
      match parse_strings rest with
      | Ok ss => Ok (s :: ss)
      | Throw e => Throw e
      end
  | _ :: _ => Throw zod_error
  end.

(** [z.union([z.string(), z.array(z.string())]).optional()]. *)
Definition parse_tags (v : option json) : result (option tag_value) :=
  match v with
  | None => Ok None
  | Some (JStr s) => Ok (Some (TagString s))
  | Some (JArr l) =>
      match parse_strings l with
      | Ok ss => Ok (Some (TagArray ss))
      | Throw e => Throw e
      end
  | Some _ => Throw zod_error
  end.

Definition declared (k : string) : bool :=
  bool_decide (k ∈ ["Caption-Abstract"; "Description"; "ImageDescription";
                    "Keywords"; "Subject"]).

(** [ExifMetadataSchema.parse] (lines 9-17): the input must be an object
    whose declared properties have the declared types. *)
Definition ExifMetadataSchema_parse (v : json) : result ExifMetadata :=
  match v with
  | JObj fields =>
      match parse_string (field "Caption-Abstract" fields),
            parse_string (field "Description" fields),
            parse_string (field "ImageDescription" fields),
            parse_tags (field "Keywords" fields),
            parse_tags (field "Subject" fields) with
      | Ok c, Ok d, Ok i, Ok k, Ok s =>
          Ok (mkExif c d i k s
                (filter (λ kv, declared kv.1 = false) fields))
      | _, _, _, _, _ => Throw zod_error
      end
  | _ => Throw zod_error
  end.

Definition exiftool : string := "/opt/homebrew/bin/exiftool".

Section tool.

(** What a subprocess does with its arguments: its standard output, or
    the error [execFile] rejects with. *)
Variable subprocess : call → result string.

(** [JSON.parse]. *)
Variable JSON_parse : string → result json.

(** [path.join], [path.dirname] and [path.basename] of Node. *)
Variable path_join : list string → string.
Variable path_dirname : string → string.
Variable path_basename : string → string.

(** [await execFileAsync(file, args)], destructured to [stdout]. *)
Definition execFileAsync (f : string) (a : list string) : io string :=
  λ tr, (subprocess (mkCall f a), tr ++ [mkCall f a]).

(** [rawMetadata[0] ?? {}] (line 58). *)
Definition first_or_empty (raw : json) : result json :=
  match index0 raw with
  | Ok (Some JNull) | Ok None => Ok (JObj [])
  | Ok (Some v) => Ok v
  | Throw e => Throw e
  end.

(** The [try] block of [readImageMetadata] (lines 53-59). *)
Definition readImageMetadata_try (imagePath : string) : io ExifMetadata :=
  stdout ← execFileAsync exiftool ["-j"; imagePath];
  rawMetadata ← lift (JSON_parse stdout);
  first ← lift (first_or_empty rawMetadata);
  lift (ExifMetadataSchema_parse first).

(** [readImageMetadata] (lines 49-68): the handler logs and returns
    [{}]. *)
Definition readImageMetadata (imagePath : string) : io ExifMetadata :=
  try_catch (readImageMetadata_try imagePath) (λ _, mret empty).

(** The output path of [writeCaption] (lines 74-79). *)
Definition outputPath (imagePath : string) : string :=
  path_join [path_dirname imagePath; ".."; "output";
             path_basename imagePath].

(** The argument array of [writeCaption] (lines 82-90). *)
Definition writeCaption_args (imagePath caption : string) : list string :=
  ["-overwrite_original";
   "-Caption-Abstract=" +:+ caption;
   "-Description=" +:+ caption;
   "-ImageDescription=" +:+ caption;
   imagePath;
   "-o";
   outputPath imagePath].

(** The error the handler of [writeCaption] builds (lines 92-96). *)
Definition writeCaption_error (error : thrown) : thrown :=
  let errorMessage :=
    if is_Error error then message error else as_string error in
  let stderr := default "" (stderr error) in
  new_Error ("Failed to write caption to image: " +:+ errorMessage +:+
             (if Js.truthy stderr then nl +:+ "Details: " +:+ stderr
              else "")).

(** [writeCaption] (lines 70-98). *)
Definition writeCaption (imagePath caption : string) : io unit :=
  try_catch
    (_ ← execFileAsync exiftool (writeCaption_args imagePath caption);
     mret ())
    (λ error, io_throw (writeCaption_error error)).

End tool.

End ImageProcessor.

(** [readImageMetadata] in the variant of [imageProcessor.ts] that has no
    schema and returns [Record<string, any>]. *)
Module ImageProcessorUntyped.
Import Effect Json.

Section tool.

Variable subprocess : call → result string.
Variable JSON_parse : string → result json.

(** [metadata[0] || {}] (line 45). *)
Definition first_or_empty (metadata : json) : result json :=
  match index0 metadata with
  | Ok (Some v) => Ok (if truthy v then v else JObj [])
  | Ok None => Ok (JObj [])
  | Throw e => Throw e
  end.

(** The [try] block (lines 40-45). *)
Definition readImageMetadata_try (imagePath : string) : io json :=
  stdout ← ImageProcessor.execFileAsync subprocess
             ImageProcessor.exiftool ["-j"; imagePath];
  metadata ← lift (JSON_parse stdout);
  lift (first_or_empty metadata).

(** [readImageMetadata] (lines 36-50). *)
Definition readImageMetadata (imagePath : string) : io json :=
  try_catch (readImageMetadata_try imagePath) (λ _, mret (JObj [])).

End tool.

End ImageProcessorUntyped.

(** ** [src/captionGenerator.ts] *)

Module CaptionGenerator.
Import Effect.

(** The parameter [existingMetadata] of [generateCaption]:
    [{ caption?: string; tags?: string[] }]. *)
Record ExistingMetadata := mkExisting {
  caption : option string;
  tags : option (list string);
}.

(** The fields of the class; the client object plays no part in the
    prompt. *)
Record Generator := mkGenerator {
  prompt : string;
}.

(** The request [generateCaption] sends (lines 55-74); the sampling
    temperature, a constant, is left out. *)
Record Request := mkRequest {
  model : string;
  text : string;
  image_url : string;
  detail : string;
  max_tokens : Z;
}.

Definition indent (n : nat) : string := String.concat "" (replicate n " ").

(** The literal segments of the template of lines 19-21. *)
Definition default_template : list string :=
  [nl +:+ indent 8 +:+
   "Write a brief caption for this photo. Be specific and include terms that might be useful for search later while still writing it in a natural voice. It should help tell the story of the photo. Avoid inferring too much—if you're not confident in a specific action, don't hypothesize in the output, just include what you are reasonably confident of. Output only the caption, nothing else."
   +:+ nl +:+ indent 6].

Definition triple_quote : string := dq +:+ dq +:+ dq.

(** The literal segments of the template of lines 43-51, around its two
    substitutions. *)
Definition enhanced_template : list string :=
  [nl +:+ indent 12;
   " Use the image metadata to inform your caption." +:+ nl +:+ nl +:+
   indent 12 +:+ "Image metadata: " +:+ triple_quote +:+ nl +:+ indent 12;
   nl +:+ indent 12 +:+ triple_quote +:+ nl +:+ nl +:+ indent 12 +:+
   "Try to include any names from the metadata in your caption, but be careful not to infer too much."
   +:+ nl +:+ indent 10].

(** Line 35. *)
Definition caption_line (c : string) : string :=
  "EXIF Caption: " +:+ dq +:+ c +:+ dq.

(** Lines 38-40. *)
Definition keywords_line (ts : list string) : string :=
  "EXIF Keywords: " +:+ Js.join ", " ts.

(** [existingMetadata.tags && existingMetadata.tags.length > 0]. *)
Definition has_tags (m : ExistingMetadata) : bool :=
  match tags m with
  | Some ts => (0 <? length ts)%nat
  | None => false
  end.

(** [existingMetadata.caption] as a condition. *)
Definition has_caption (m : ExistingMetadata) : bool :=
  Js.truthy_opt Js.truthy (caption m).

(** [contextParts] after lines 33-41. *)
Definition contextParts (m : ExistingMetadata) : list string :=
  (if has_caption m then [caption_line (default "" (caption m))] else []) ++
  (if has_tags m then [keywords_line (default [] (tags m))] else []).

Section generator.

(** The template tag [heredoc] of the package heredoc-ts, applied to the
    literal segments of a template and to its substituted values. *)
Variable heredoc : list string → list string → string.

(** [buffer.toString("base64")]. *)
Context {Buffer : Type}.
Variable base64 : Buffer → string.

(** The constructor (lines 15-22): [customPrompt || heredoc`...`]. *)
Definition constructor (customPrompt : option string) : Generator :=
  mkGenerator
    (default (heredoc default_template [])
       (Js.or_else Js.truthy customPrompt None)).

(** [enhancedPrompt] (lines 31-53). *)
Definition enhancedPrompt
    (g : Generator) (existingMetadata : option ExistingMetadata) : string :=
  match existingMetadata with
  | Some m =>
      if has_caption m || has_tags m then
        let parts := contextParts m in
        if (0 <? length parts)%nat
        then heredoc enhanced_template [prompt g; Js.join nl parts]
        else prompt g
      else prompt g
  | None => prompt g
  end.

(** The request of lines 55-74. *)
Definition request
    (g : Generator) (imageBuffer : Buffer)
    (existingMetadata : option ExistingMetadata) : Request :=
  mkRequest "gpt-4.1-mini" (enhancedPrompt g existingMetadata)
            ("data:image/jpeg;base64," +:+ base64 imageBuffer) "auto" 1000.

End generator.

(** A tag that only interleaves the segments and the values, to run the
    prompt construction on examples. *)
Fixpoint interleave (segments values : list string) : string :=
  match segments with
  | [] => ""
  | s :: segments' =>
      match values with
      | [] => s +:+ interleave segments' []
      | v :: values' => s +:+ v +:+ interleave segments' values'
      end
  end.

End CaptionGenerator.

(** ** The metadata context of [processImage] in [src/index.ts] *)

Module Index.
Import ImageProcessor CaptionGenerator.

(** Truthiness of a [Keywords] or [Subject] value: an array is truthy even
    when empty. *)
Definition tag_truthy (v : tag_value) : bool :=
  match v with
  | TagString s => Js.truthy s
  | TagArray _ => true
  end.

(** [Array.isArray(existingTags) ? existingTags : [existingTags]]. *)
Definition to_array (v : tag_value) : list string :=
  match v with
  | TagString s => [s]
  | TagArray l => l
  end.

(** Lines 52-60: the two guarded assignments to [existingMetadata]. *)
Definition context_of
    (existingCaption : option string) (existingTags : option tag_value)
    : ExistingMetadata :=
  mkExisting
    (if Js.truthy_opt Js.truthy existingCaption then existingCaption
     else None)
    (if Js.truthy_opt tag_truthy existingTags then to_array <$> existingTags
     else None).

(** Lines 46-60 of [src/index.ts], where the fields are combined with
    [||]. *)
Definition existingMetadata (metadata : ExifMetadata) : ExistingMetadata :=
  let existingCaption :=
    Js.or_else Js.truthy
      (Js.or_else Js.truthy (Caption_Abstract metadata) (Description metadata))
      (ImageDescription metadata) in
  let existingTags :=
    Js.or_else tag_truthy (Keywords metadata) (Subject metadata) in
  context_of existingCaption existingTags.

End Index.

(** The metadata context in the variant of [index.ts] that types its
    results as [ProcessImageResult], where the fields are combined with
    [??]. *)
Module IndexNullish.
Import ImageProcessor CaptionGenerator.

(** Lines 68-82. *)
Definition existingMetadata (metadata : ExifMetadata) : ExistingMetadata :=
  let existingCaption :=
    Js.nullish_else
      (Js.nullish_else (Caption_Abstract metadata) (Description metadata))
      (ImageDescription metadata) in
  let existingTags := Js.nullish_else (Keywords metadata) (Subject metadata) in
  Index.context_of existingCaption existingTags.

End IndexNullish.

(** ** The run logger ([logger.ts]) *)

Module Logger.

(** [str.replace(/[:.]/g, "-")]: every colon and every full stop becomes a
    hyphen. *)
Fixpoint replace_colons_dots (s : string) : string :=
  match s with
  | EmptyString => EmptyString
  | String c rest =>
      String (if bool_decide (c = ":"%char ∨ c = "."%char) then "-"%char
              else c)
             (replace_colons_dots rest)
  end.

Section logger.

(** The type of the optional property [metadata]. *)
Context {Meta : Type}.

(** [Omit<LogEntry, "timestamp">], the argument of [log]. *)
Record Entry := mkEntry {
  imagePath : string;
  caption : option string;
  error : option string;
  processingTime : Z;
  metadata : option Meta;
}.

(** [LogEntry]: the entry with its timestamp. *)
Record LogEntry := mkLogEntry {
  timestamp : string;
  logged : Entry;
}.

(** The fields of the class. *)
Record Logger := mkLogger {
  logs : list LogEntry;
  logPath : string;
}.

(** The object [save] serialises.  [averageProcessingTime] is a floating
    point quotient; it is kept as its two integer operands, the sum of the
    processing times and the number of entries (0 over 0 is [NaN]). *)
Record Summary := mkSummary {
  totalImages : nat;
  successful : nat;
  failed : nat;
  averageProcessingTime : Z * nat;
  summary_logs : list LogEntry;
}.

(** [path.join] of Node. *)
Variable path_join : list string → string.

(** The constructor, given [new Date().toISOString()] and
    [process.cwd()]. *)
Definition constructor (now cwd : string) : Logger :=
  mkLogger []
    (path_join [cwd; "logs";
                "caption-log-" +:+ replace_colons_dots now +:+ ".json"]).

(** [log], given [new Date().toISOString()]. *)
Definition log (entry : Entry) (now : string) (lg : Logger) : Logger :=
  mkLogger (logs lg ++ [mkLogEntry now entry]) (logPath lg).

(** [log.error] as a condition. *)
Definition has_error (l : LogEntry) : bool :=
  Js.truthy_opt Js.truthy (error (logged l)).

(** The object [summary] built by [save]. *)
Definition summary (lg : Logger) : Summary :=
  mkSummary
    (length (logs lg))
    (length (filter (λ l, has_error l = false) (logs lg)))
    (length (filter (λ l, has_error l = true) (logs lg)))
    (foldl (λ sum l, sum + processingTime (logged l)) 0 (logs lg),
     length (logs lg))
    (logs lg).

End logger.

Arguments Entry : clear implicits.
Arguments LogEntry : clear implicits.
Arguments Logger : clear implicits.
Arguments Summary : clear implicits.

End Logger.

(** ** [resizeImage] of [src/imageProcessor.ts] *)

Module ImageResize.
Import Effect.

(** What [image.metadata()] tells about the size; a missing property is
    [None]. *)
Record Dimensions := mkDimensions {
  width : option Z;
  height : option Z;
}.

(** [sharp.ResizeOptions], as far as the code sets it. *)
Record ResizeOptions := mkOptions {
  fit : string;
  withoutEnlargement : bool;
  box_width : option Z;
  box_height : option Z;
}.

(** [!n] on an optional number: missing or 0. *)
Definition missing (n : option Z) : bool :=
  match n with
  | Some v => (v =? 0)%Z
  | None => true
  end.

(** The options of lines 32-40. *)
Definition resizeOptions (w h maxDimension : Z) : ResizeOptions :=
  if ((maxDimension <? w) || (maxDimension <? h))%Z
  then mkOptions "inside" true (Some maxDimension) (Some maxDimension)
  else mkOptions "inside" true None None.

Section sharp.

Context {Buffer : Type}.

(** [sharp(inputPath).metadata()]. *)
Variable sharp_metadata : string → result Dimensions.

(** [sharp(inputPath).resize(options).jpeg({ quality }).toBuffer()]. *)
Variable sharp_jpeg : string → ResizeOptions → Z → result Buffer.

(** [resizeImage] (lines 21-43). *)
Definition resizeImage (inputPath : string) (maxDimension : Z)
    : result Buffer :=
  match sharp_metadata inputPath with
  | Throw e => Throw e
  | Ok metadata =>
      if missing (width metadata) || missing (height metadata)
      then Throw (new_Error "Unable to get image dimensions")
      else sharp_jpeg inputPath
             (resizeOptions (default 0 (width metadata))
                            (default 0 (height metadata)) maxDimension)
             70
  end.

End sharp.

End ImageResize.

(** ** The rest of [generateCaption] in [src/captionGenerator.ts] *)

Module CaptionCall.
Import Effect CaptionGenerator.

(** The response of the model, as far as line 76 reads it:
    [response.choices[0]?.message?.content]. *)
Record Message := mkMessage {
  content : option string;
}.

Record Choice := mkChoice {
  message : option Message;
}.

Definition first_content (choices : list Choice) : option string :=
  c ← choices !! 0%nat; m ← message c; content m.

Section call.

Variable heredoc : list string → list string → string.
Context {Buffer : Type}.
Variable base64 : Buffer → string.

(** [this.openai.chat.completions.create]. *)
Variable create : Request → result (list Choice).

(** [String.prototype.trim]. *)
Variable trim : string → string.

(** The [try] block of [generateCaption] (lines 29-83). *)
Definition generateCaption_try
    (g : Generator) (imageBuffer : Buffer)
    (existingMetadata : option ExistingMetadata) : result string :=
  match create (request heredoc base64 g imageBuffer existingMetadata) with
  | Throw e => Throw e
  | Ok choices =>
      match first_content choices with
      | Some c =>
          if Js.truthy c then Ok (trim c)
          else Throw (new_Error "No caption generated")
      | None => Throw (new_Error "No caption generated")
      end
  end.

(** [generateCaption] (lines 24-89): the handler wraps whatever the block
    threw. *)
Definition generateCaption
    (g : Generator) (imageBuffer : Buffer)
    (existingMetadata : option ExistingMetadata) : result string :=
  match generateCaption_try g imageBuffer existingMetadata with
  | Ok caption => Ok caption
  | Throw error =>
      Throw (new_Error ("Failed to generate caption: " +:+
                        (if is_Error error then Effect.message error
                         else as_string error)))
  end.

End call.

End CaptionCall.

(** ** The rest of [src/index.ts] *)

Module Main.
Import Effect ImageProcessor CaptionGenerator.

(** ASCII lower case. *)
Definition lower (c : ascii) : ascii :=
  let n := nat_of_ascii c in
  if ((65 <=? n) && (n <=? 90))%nat then ascii_of_nat (n + 32) else c.

Fixpoint lower_string (s : string) : string :=
  match s with
  | EmptyString => EmptyString
  | String c rest => String (lower c) (lower_string rest)
  end.

(** Whether [s] ends with [suffix]. *)
Fixpoint ends_with (suffix s : string) : bool :=
  if String.eqb s suffix then true
  else match s with
       | EmptyString => false
       | String _ rest => ends_with suffix rest
       end.

(** [/\.(jpg|jpeg)$/i.test(file)] (line 23). *)
Definition is_jpeg (file : string) : bool :=
  ends_with ".jpg" (lower_string file) || ends_with ".jpeg" (lower_string file).

(** What [fs.readdir] does: the names in the directory, or a thrown value
    with its property [code]. *)
Inductive Readdir :=
| Listing (files : list string)
| ReaddirError (error : thrown) (code : option string).

(** The value thrown by [processImage] (lines 97-101). *)
Record ProcessImageError := mkProcessImageError {
  failed_imagePath : string;
  failed_error : string;
  failed_processingTime : Z;
}.

(** [resultMetadata] (lines 79-85). *)
Record ResultMetadata := mkResultMetadata {
  existingCaption : option string;
  existingTags : option (list string);
}.

(** The value returned by [processImage] (lines 87-92). *)
Record ProcessImageResult := mkProcessImageResult {
  imagePath : string;
  caption : string;
  processingTime : Z;
  metadata : option ResultMetadata;
}.

(** Lines 79-91: the properties are copied when they are truthy, and the
    object is dropped when it has no key. *)
Definition resultMetadata (m : ExistingMetadata) : option ResultMetadata :=
  let c := if Js.truthy_opt Js.truthy (CaptionGenerator.caption m)
           then CaptionGenerator.caption m else None in
  let t := tags m in
  match c, t with
  | None, None => None
  | _, _ => Some (mkResultMetadata c t)
  end.

Section main.

Variable path_join : list string → string.
Variable path_dirname path_basename : string → string.

(** [process.cwd()]. *)
Variable cwd : string.

Definition INPUT_DIR : string := path_join [cwd; "input"].

(** [findJpegFiles] (lines 19-31). *)
Definition findJpegFiles (readdir : Readdir) : result (list string) :=
  match readdir with
  | Listing files =>
      Ok ((λ file, path_join [INPUT_DIR; file]) <$>
          filter (λ file, is_jpeg file = true) files)
  | ReaddirError error code =>
      if bool_decide (code = Some "ENOENT")
      then Throw (new_Error ("Input directory not found. Please create: " +:+
                             INPUT_DIR))
      else Throw error
  end.

Variable subprocess : call → result string.
Variable JSON_parse : string → result Json.json.
Variable heredoc : list string → list string → string.
Context {Buffer : Type}.
Variable base64 : Buffer → string.
Variable create : Request → result (list CaptionCall.Choice).
Variable trim : string → string.
Variable sharp_metadata : string → result ImageResize.Dimensions.
Variable sharp_jpeg :
  string → ImageResize.ResizeOptions → Z → result Buffer.

(** [stripMetadata]: [sharp(imageBuffer).toBuffer()]. *)
Variable stripMetadata : Buffer → result Buffer.

(** The two readings of [Date.now()]: on entry, and on the way out. *)
Variable startTime endTime : Z.

(** The [try] block of [processImage] (lines 42-92). *)
Definition processImage_try (g : Generator) (imagePath : string)
    : io ProcessImageResult :=
  metadata ← readImageMetadata subprocess JSON_parse imagePath;
  let existingMetadata := Index.existingMetadata metadata in
  resizedBuffer ← lift (ImageResize.resizeImage sharp_metadata sharp_jpeg
                          imagePath 1248);
  strippedBuffer ← lift (stripMetadata resizedBuffer);
  caption ← lift (CaptionCall.generateCaption heredoc base64 create trim g
                    strippedBuffer (Some existingMetadata));
  _ ← writeCaption subprocess path_join path_dirname path_basename
        imagePath caption;
  mret (mkProcessImageResult imagePath caption (endTime - startTime)
          (resultMetadata existingMetadata)).

(** [processImage] (lines 33-103): what it returns, or the object it
    throws, and the subprocesses it started. *)
Definition processImage (g : Generator) (imagePath : string)
    (tr : list call) : (ProcessImageError + ProcessImageResult) * list call :=
  match processImage_try g imagePath tr with
  | (Ok r, tr') => (inr r, tr')
  | (Throw error, tr') =>
      (inl (mkProcessImageError imagePath
              (if is_Error error then message error else as_string error)
              (endTime - startTime)),
       tr')
  end.

End main.

(** The loop over the results in [main] (lines 144-160), with the logger
    it feeds. *)
Section report.

Import ParallelProcessor.

Abbreviation Result :=
  (Outcome string ProcessImageResult ProcessImageError) (only parsing).

Record Tally := mkTally {
  logger : Logger.Logger ResultMetadata;
  successCount : nat;
  errorCount : nat;
}.

(** [new Date().toISOString()] at the call of [log] that follows [k]
    earlier ones. *)
Variable clock : nat → string.

Definition now (t : Tally) : string :=
  clock (length (Logger.logs (logger t))).

(** The entry logged for a failed item (lines 153-157): each property
    falls back when it is falsy; a plain object has no [message]. *)
Definition error_entry (item : string) (e : ProcessImageError)
    : Logger.Entry ResultMetadata :=
  Logger.mkEntry
    (if Js.truthy (failed_imagePath e) then failed_imagePath e else item)
    None
    (if Js.truthy (failed_error e) then Some (failed_error e) else None)
    (if (failed_processingTime e =? 0)%Z then 0%Z else failed_processingTime e)
    None.

(** The entry logged for a captioned item (line 149). *)
Definition result_entry (r : ProcessImageResult)
    : Logger.Entry ResultMetadata :=
  Logger.mkEntry (imagePath r) (Some (caption r)) None (processingTime r)
    (metadata r).

(** One turn of the loop. *)
Definition report_one (t : Tally) (o : Result) : Tally :=
  match ParallelProcessor.result o, ParallelProcessor.error o with
  | Some r, _ =>
      mkTally (Logger.log (result_entry r) (now t) (logger t))
              (S (successCount t)) (errorCount t)
  | None, Some e =>
      mkTally (Logger.log (error_entry (item o) e) (now t) (logger t))
              (successCount t) (S (errorCount t))
  | None, None => t
  end.

(** Whether a slot carries a result. *)
Definition fulfilled (o : Result) : bool :=
  match ParallelProcessor.result o with Some _ => true | None => false end.

(** The whole loop; reading a property of a hole of the array throws a
    [TypeError], which is [None] here. *)
Fixpoint report (t : Tally) (results : Js.array Result) : option Tally :=
  match results with
  | [] => Some t
  | Some o :: rest => report (report_one t o) rest
  | None :: _ => None
  end.

End report.

End Main.

(** One file going through [processImage], with a tool that prints no
    record, an image of 100 by 50 and a model that answers [A pier]. *)
Module PipelineScenario.
Import Effect Json CaptionGenerator.

Definition subprocess (c : call) : result string := Ok "[]".
Definition JSON_parse (s : string) : result json := Ok (JArr []).
Definition sharp_metadata (p : string) : result ImageResize.Dimensions :=
  Ok (ImageResize.mkDimensions (Some 100) (Some 50)).
Definition sharp_jpeg (p : string) (o : ImageResize.ResizeOptions) (q : Z)
    : result string := Ok p.
Definition stripMetadata (b : string) : result string := Ok b.
Definition create (r : Request) : result (list CaptionCall.Choice) :=
  Ok [CaptionCall.mkChoice (Some (CaptionCall.mkMessage (Some "A pier")))].

(** A model that refuses the request. *)
Definition create_fails (r : Request) : result (list CaptionCall.Choice) :=
  Throw (new_Error "429 rate limit").

Definition generator : Generator := mkGenerator "Describe the photo.".

Definition run (create : Request → result (list CaptionCall.Choice))
    : (Main.ProcessImageError + Main.ProcessImageResult) * list call :=
  Main.processImage (String.concat "/") (λ _, "input") (λ _, "a.jpg")
    subprocess JSON_parse interleave id create id sharp_metadata sharp_jpeg
    stripMetadata 1000 1250 generator "input/a.jpg" [].

(** A record whose description was printed as a number. *)
Definition numeric_description : list (string * json) :=
  [("SourceFile", JStr "a.jpg"); ("Caption-Abstract", JStr "Ann");
   ("Description", JNum 2024)].

Definition tidy_record : list (string * json) :=
  [("SourceFile", JStr "a.jpg"); ("Description", JStr "Pier");
   ("Keywords", JArr [JStr "sea"])].

End PipelineScenario.

(** The results of the run of three files, as [main] receives them. *)
Module ReportScenario.
Import ParallelProcessor.

Definition results :
    list (option (Outcome string Main.ProcessImageResult
                    Main.ProcessImageError)) :=
  [Some (success "a.jpg" (Main.mkProcessImageResult "a.jpg" "A pier" 250 None));
   Some (failure "b.jpg" (Main.mkProcessImageError "b.jpg" "no caption" 90));
   Some (success "c.jpg" (Main.mkProcessImageResult "c.jpg" "A boat" 300 None))].

Definition processor (i : nat) (x : string)
    : Behaviour Main.ProcessImageResult Main.ProcessImageError :=
  match i with
  | 0%nat => Fulfils (Main.mkProcessImageResult "a.jpg" "A pier" 250 None)
  | 1%nat => Rejects (Main.mkProcessImageError "b.jpg" "no caption" 90)
  | _ => Fulfils (Main.mkProcessImageResult "c.jpg" "A boat" 300 None)
  end.

End ReportScenario.

(** Four files with two slots, where the operation on the second file
    never settles. *)
Module StalledScenario.
Import ParallelProcessor.

Definition items : list string := ["a.jpg"; "b.jpg"; "c.jpg"; "d.jpg"].

Definition processor (i : nat) (x : string) : Behaviour string string :=
  match i with
  | 1%nat => Hangs
  | _ => Fulfils ("caption of " +:+ x)
  end.

(** The first, third and fourth operations go through the other slot. *)
Definition schedule : list Event :=
  [Settle 0; Finish 0; Settle 2; Finish 2; Settle 3; Finish 3]%nat.

Definition final : State string string string :=
  mkState 1 []
    [Some (success "a.jpg" "caption of a.jpg");
     None;
     Some (success "c.jpg" "caption of c.jpg");
     Some (success "d.jpg" "caption of d.jpg")]
    [Done; Running; Done; Done]
    [(0%nat, "a.jpg"); (1%nat, "b.jpg"); (2%nat, "c.jpg"); (3%nat, "d.jpg")].

End StalledScenario.

(** * Properties *)

Close Scope Z_scope.

(** ** JavaScript arrays *)

Section array_facts.
Context {A : Type}.
Implicit Types (arr : Js.array A) (v : A) (i j : nat).

Lemma length_array_set i v arr :
  length (Js.array_set i v arr) = max (length arr) (S i).
Proof.
  unfold Js.array_set. case_decide.
  - rewrite length_insert. lia.
  - rewrite !length_app, length_replicate. simpl. lia.
Qed.

Lemma array_get_set_eq i v arr : Js.array_get (Js.array_set i v arr) i = Some v.
Proof.
  unfold Js.array_get, Js.array_set. case_decide.
  - by rewrite list_lookup_insert_eq.
  - rewrite lookup_app_r by lia.
    rewrite lookup_app_r by (rewrite length_replicate; lia).
    rewrite length_replicate.
    by replace (i - length arr - (i - length arr)) with 0 by lia.
Qed.

Lemma array_get_set_ne i j v arr :
  i ≠ j → Js.array_get (Js.array_set i v arr) j = Js.array_get arr j.
Proof.
  intros Hne. unfold Js.array_get, Js.array_set. case_decide.
  - by rewrite list_lookup_insert_ne.
  - destruct (decide (j < length arr)) as [Hj|Hj].
    + by rewrite lookup_app_l.
    + rewrite (lookup_ge_None_2 arr j) by lia.
      rewrite lookup_app_r by lia.
      destruct (decide (j - length arr < i - length arr)) as [Hlt|Hge].
      * rewrite lookup_app_l by (rewrite length_replicate; lia).
        rewrite lookup_replicate_2 by lia. done.
      * rewrite lookup_app_r by (rewrite length_replicate; lia).
        rewrite length_replicate.
        rewrite lookup_ge_None_2; [done|]. simpl. lia.
Qed.

Lemma array_get_Some arr i v :
  Js.array_get arr i = Some v → arr !! i = Some (Some v).
Proof.
  unfold Js.array_get. destruct (arr !! i) as [[w|]|]; simpl; congruence.
Qed.

End array_facts.

(** ** The runner *)

Import ParallelProcessor.

Section runner_facts.
Context {T R E : Type}.
Variable concurrency : Z.
Variable items : list T.
Variable processor : nat → T → Behaviour R E.

Implicit Types (st : State T R E) (i j m : nat) (x y : T) (p q : Phase).
Implicit Types (f : Phase → bool) (l : list Phase).

Local Abbreviation Inv := (ParallelProcessor.Inv concurrency items processor).

(** *** Counting control points *)

Lemma count_insert f l i p q :
  l !! i = Some p →
  count f (<[i := q]> l) + (if f p then 1 else 0)
  = count f l + (if f q then 1 else 0).
Proof.
  revert i. induction l as [|a l IH]; intros [|i] Hi; simplify_eq/=.
  - lia.
  - specialize (IH i Hi). lia.
Qed.

Lemma remaining_insert l i p q :
  l !! i = Some p →
  remaining (<[i := q]> l) + weight p = remaining l + weight q.
Proof.
  revert i. induction l as [|a l IH]; intros [|i] Hi; simplify_eq/=.
  - lia.
  - specialize (IH i Hi). lia.
Qed.

Lemma remaining_bound l : remaining l ≤ 2 * length l.
Proof. induction l as [|[] l IH]; simpl; lia. Qed.

Lemma count_pos f l :
  0 < count f l → ∃ i p, l !! i = Some p ∧ f p = true.
Proof.
  induction l as [|a l IH]; simpl; [lia|].
  destruct (f a) eqn:Ha.
  - intros _. by exists 0, a.
  - intros Hl. destruct (IH Hl) as (i & p & Hi & Hp). by exists (S i), p.
Qed.

Lemma count_lookup f l i p :
  l !! i = Some p → f p = true → 0 < count f l.
Proof.
  revert i. induction l as [|a l IH]; intros [|i] Hi Hp; simplify_eq/=.
  - rewrite Hp. lia.
  - specialize (IH i Hi Hp). lia.
Qed.

Lemma count_le f g l :
  (∀ p, f p = true → g p = true) → count f l ≤ count g l.
Proof.
  intros Hfg. induction l as [|a l IH]; simpl; [lia|].
  specialize (Hfg a). destruct (f a), (g a); try lia.
Qed.

Lemma all_done_lookup l i p :
  forallb is_done l = true → l !! i = Some p → p = Done.
Proof.
  revert i. induction l as [|a l IH]; intros [|i] Hall Hi; simplify_eq/=.
  - apply andb_prop in Hall as [Ha _]. by destruct p.
  - apply andb_prop in Hall as [_ Hl]. eauto.
Qed.

Lemma all_done_intro l :
  (∀ i p, l !! i = Some p → p = Done) → forallb is_done l = true.
Proof.
  induction l as [|a l IH]; intros Hl; simpl; [done|].
  rewrite (Hl 0 a eq_refl). simpl. apply IH. intros i p Hi. by apply (Hl (S i)).
Qed.

(** *** The tasks *)

Lemma length_tasks : length (tasks items) = length items.
Proof. unfold tasks. by rewrite length_imap. Qed.

Lemma lookup_tasks i : tasks items !! i = pair i <$> items !! i.
Proof. unfold tasks. by rewrite list_lookup_imap. Qed.

Lemma lookup_tasks_Some i j x :
  tasks items !! i = Some (j, x) → j = i ∧ items !! i = Some x.
Proof.
  rewrite lookup_tasks. destruct (items !! i); intros; simplify_eq/=. done.
Qed.

(** *** What the segments do to each field *)

Lemma run_activeCount i x st :
  activeCount (run processor i x st) = (activeCount st + 1)%Z.
Proof. unfold run, fn_call. by destruct (processor i x). Qed.

Lemma run_queue i x st : queue (run processor i x st) = queue st.
Proof. unfold run, fn_call. by destruct (processor i x). Qed.

Lemma run_started i x st :
  started (run processor i x st) = started st ++ [(i, x)].
Proof. unfold run, fn_call. by destruct (processor i x). Qed.

Lemma run_phase i x st :
  phase (run processor i x st) = <[i := begun_phase processor i x]> (phase st).
Proof. unfold run, fn_call, begun_phase. by destruct (processor i x). Qed.

Lemma run_results i x st :
  results (run processor i x st) =
  match processor i x with
  | Throws e => Js.array_set i (failure x e) (results st)
  | _ => results st
  end.
Proof. unfold run, fn_call. by destruct (processor i x). Qed.

Lemma begun_phase_begun i x : is_begun (begun_phase processor i x) = true.
Proof. unfold begun_phase. by destruct (processor i x). Qed.

Lemma begun_phase_active i x : is_active (begun_phase processor i x) = true.
Proof. unfold begun_phase. by destruct (processor i x). Qed.

Lemma begun_phase_weight i x : weight (begun_phase processor i x) ≤ 2.
Proof. unfold begun_phase. destruct (processor i x); simpl; lia. Qed.

(** *** The invariant is established and kept *)

Lemma count_replicate f k p : f p = false → count f (replicate k p) = 0.
Proof. intros Hp. induction k as [|k IH]; simpl; [done|]. rewrite Hp. lia. Qed.

Lemma Inv_init : Inv 0 (init items).
Proof.
  split; simpl.
  - lia.
  - done.
  - by rewrite length_replicate.
  - intros i p [-> _]%lookup_replicate. by repeat case_decide; try lia.
  - by rewrite count_replicate.
  - done.
  - lia.
  - lia.
  - intros i x p _ [-> _]%lookup_replicate. done.
Qed.

Lemma Inv_split m st :
  Inv m st → length (started st) + length (queue st) = m.
Proof.
  intros HI. rewrite <- length_app, (inv_order _ _ _ _ _ HI).
  rewrite length_take, length_tasks. pose proof (inv_m _ _ _ _ _ HI). lia.
Qed.

Ltac insert_cases i j :=
  let Heq := fresh "Heq" in
  destruct (decide (i = j)) as [Heq|?];
  [subst j; rewrite list_lookup_insert_eq by (rewrite ?length_insert; lia)
  |rewrite list_lookup_insert_ne by done].

Lemma Inv_enqueue m x st :
  Inv m st → items !! m = Some x →
  Inv (S m) (enqueue concurrency processor m x st).
Proof.
  intros HI Hx.
  pose proof (Inv_split _ _ HI) as Hsplit.
  destruct HI as [Hm Hord Hlen Hph Hcnt Hfull Hbnd Hrl Hres].
  assert (Hmn : m < length items) by (by eapply lookup_lt_Some).
  assert (Htm : tasks items !! m = Some (m, x)) by (by rewrite lookup_tasks, Hx).
  assert (Hpm : phase st !! m = Some Unsubmitted).
  { destruct (lookup_lt_is_Some_2 (phase st) m) as [p Hp]; [lia|].
    specialize (Hph m p Hp). repeat case_decide; try lia. by subst. }
  unfold enqueue. destruct (activeCount st <? concurrency)%Z eqn:Hlt.
  - apply Z.ltb_lt in Hlt.
    assert (Hq : queue st = []).
    { destruct (queue st) eqn:Hq; [done|]. exfalso.
      assert (concurrency ≤ activeCount st)%Z by (apply Hfull; congruence). lia. }
    rewrite Hq in *. simpl in Hsplit. rewrite app_nil_r in Hord.
    split; rewrite ?run_activeCount, ?run_queue, ?run_started, ?run_phase.
    + lia.
    + rewrite Hq, app_nil_r, Hord. symmetry. by apply take_S_r.
    + by rewrite length_insert.
    + intros i p. rewrite length_app. simpl.
      insert_cases m i.
      * intros [= <-]. case_decide; [|lia]. apply begun_phase_begun.
      * intros Hp. specialize (Hph i p Hp). repeat case_decide; try lia; done.
    + pose proof (count_insert is_active _ _ _ (begun_phase processor m x) Hpm) as Hc.
      rewrite begun_phase_active in Hc. simpl in Hc. lia.
    + by rewrite Hq.
    + lia.
    + rewrite run_results. destruct (processor m x); try done.
      rewrite length_array_set. lia.
    + intros i y p Hy. rewrite run_results.
      insert_cases m i.
      * intros [= <-]. assert (y = x) as -> by congruence.
        specialize (Hres _ _ _ Hx Hpm). simpl in Hres.
        unfold begun_phase, outcome_of.
        destruct (processor m x) eqn:Hb; try (split; [congruence|done]).
        eexists. split; [done|]. by rewrite array_get_set_eq.
      * intros Hp. specialize (Hres _ _ _ Hy Hp).
        destruct (processor m x); try done.
        by rewrite array_get_set_ne.
  - apply Z.ltb_ge in Hlt.
    split; simpl.
    + lia.
    + rewrite app_assoc, Hord. symmetry. by apply take_S_r.
    + by rewrite length_insert.
    + intros i p. insert_cases m i.
      * intros [= <-]. repeat case_decide; try lia; done.
      * intros Hp. specialize (Hph i p Hp). repeat case_decide; try lia; done.
    + pose proof (count_insert is_active _ _ _ Queued Hpm) as Hc.
      simpl in Hc. lia.
    + done.
    + done.
    + done.
    + intros i y p Hy. insert_cases m i.
      * intros [= <-]. by apply (Hres _ _ _ Hy Hpm).
      * intros Hp. by apply (Hres _ _ _ Hy Hp).
Qed.

Lemma submit_prefix_S m x :
  items !! m = Some x →
  submit_prefix concurrency items processor (S m) =
  enqueue concurrency processor m x (submit_prefix concurrency items processor m).
Proof.
  intros Hx. unfold submit_prefix.
  rewrite (take_S_r _ _ (m, x)) by (by rewrite lookup_tasks, Hx).
  by rewrite foldl_snoc.
Qed.

Lemma submit_prefix_all :
  submit_prefix concurrency items processor (length items) =
  submit concurrency items processor.
Proof.
  unfold submit_prefix, submit. rewrite take_ge; [done|]. by rewrite length_tasks.
Qed.

Lemma Inv_submit_prefix m :
  m ≤ length items → Inv m (submit_prefix concurrency items processor m).
Proof.
  induction m as [|m IH]; intros Hm.
  - apply Inv_init.
  - destruct (lookup_lt_is_Some_2 items m) as [x Hx]; [lia|].
    rewrite (submit_prefix_S _ _ Hx). apply Inv_enqueue; [|done]. apply IH. lia.
Qed.

Lemma Inv_submit : Inv (length items) (submit concurrency items processor).
Proof. rewrite <- submit_prefix_all. by apply Inv_submit_prefix. Qed.

Lemma Inv_order_all st :
  Inv (length items) st → started st ++ queue st = tasks items.
Proof.
  intros HI. rewrite (inv_order _ _ _ _ _ HI), take_ge; [done|].
  by rewrite length_tasks.
Qed.

(** A closure past its start is one of the calls made so far. *)
Lemma Inv_begun m st i p :
  Inv m st → phase st !! i = Some p → is_begun p = true →
  i < length (started st).
Proof.
  intros HI Hp Hb. pose proof (inv_phase _ _ _ _ _ HI i p Hp) as H.
  repeat case_decide; try lia; subst; done.
Qed.

Lemma Inv_settle st st' i :
  Inv (length items) st → settle items processor i st = Some st' →
  Inv (length items) st'.
Proof.
  intros HI Hst. unfold settle in Hst.
  destruct (phase st !! i) as [[]|] eqn:Hpi; try done.
  destruct (items !! i) as [x|] eqn:Hx; try done.
  assert (Hil : i < length items) by (by eapply lookup_lt_Some).
  pose proof (Inv_begun _ _ _ _ HI Hpi eq_refl) as Hbeg.
  destruct HI as [Hm Hord Hlen Hph Hcnt Hfull Hbnd Hrl Hres].
  assert (∃ o, outcome_of processor i x = Some o ∧
               st' = set_phase i Recorded (record i o st)) as (o & Ho & ->).
  { unfold outcome_of. destruct (processor i x); simplify_eq; eauto. }
  split; simpl.
  - done.
  - done.
  - by rewrite length_insert.
  - intros j p. insert_cases i j.
    + intros [= <-]. by case_decide.
    + apply Hph.
  - pose proof (count_insert is_active _ _ _ Recorded Hpi) as Hc.
    simpl in Hc. lia.
  - done.
  - done.
  - rewrite length_array_set. lia.
  - intros j y p Hy. insert_cases i j.
    + intros [= <-]. assert (y = x) as -> by congruence.
      exists o. by rewrite array_get_set_eq.
    + intros Hp. rewrite array_get_set_ne by done. by apply Hres.
Qed.

Lemma Inv_finish st st' i :
  Inv (length items) st → finish processor i st = Some st' →
  Inv (length items) st'.
Proof.
  intros HI Hst. unfold finish in Hst.
  destruct (phase st !! i) as [[]|] eqn:Hpi; try done.
  injection Hst as <-.
  assert (Hil : i < length (phase st)) by (by eapply lookup_lt_Some).
  pose proof (Inv_begun _ _ _ _ HI Hpi eq_refl) as Hbeg.
  pose proof (Inv_split _ _ HI) as Hsplit.
  pose proof (Inv_order_all _ HI) as Hall.
  destruct HI as [Hm Hord Hlen Hph Hcnt Hfull Hbnd Hrl Hres].
  pose proof (count_lookup is_active _ _ _ Hpi eq_refl) as Hact.
  unfold run_next. simpl.
  destruct (queue st) as [|[j y] q] eqn:Hq.
  - split; simpl.
    + done.
    + by rewrite Hq.
    + by rewrite length_insert.
    + intros k p. insert_cases i k.
      * intros [= <-]. by case_decide.
      * apply Hph.
    + pose proof (count_insert is_active _ _ _ Done Hpi) as Hc.
      simpl in Hc. lia.
    + done.
    + lia.
    + done.
    + intros k x p Hx. insert_cases i k.
      * intros [= <-]. by apply (Hres _ _ _ Hx Hpi).
      * by apply Hres.
  - simpl in Hsplit.
    assert (Htj : tasks items !! length (started st) = Some (j, y)).
    { rewrite <- Hall. by rewrite list_lookup_middle. }
    apply lookup_tasks_Some in Htj as [-> Hy].
    set (s := length (started st)) in *.
    assert (Hps : phase st !! s = Some Queued).
    { destruct (lookup_lt_is_Some_2 (phase st) s) as [p Hp]; [lia|].
      specialize (Hph s p Hp). repeat case_decide; try lia. by subst. }
    assert (Hne : i ≠ s) by lia.
    split; simpl;
      rewrite ?run_activeCount, ?run_queue, ?run_started, ?run_phase; simpl.
    + done.
    + rewrite <- app_assoc. simpl. by rewrite take_ge by (by rewrite length_tasks).
    + by rewrite !length_insert.
    + intros k p. rewrite length_app. simpl. fold s.
      insert_cases i k.
      * intros [= <-]. case_decide; [done|lia].
      * insert_cases s k.
        -- intros [= <-]. case_decide; [|lia]. apply begun_phase_begun.
        -- intros Hp. specialize (Hph k p Hp).
           repeat case_decide; try lia; done.
    + pose proof (count_insert is_active _ _ _ (begun_phase processor s y) Hps)
        as Hc1.
      assert (<[s := begun_phase processor s y]> (phase st) !! i = Some Recorded)
        as Hpi' by (by rewrite list_lookup_insert_ne).
      pose proof (count_insert is_active _ _ _ Done Hpi') as Hc2.
      rewrite begun_phase_active in Hc1. simpl in Hc1, Hc2. lia.
    + intros _. assert (concurrency ≤ activeCount st)%Z by (by apply Hfull). lia.
    + lia.
    + rewrite run_results. simpl. destruct (processor s y); try done.
      rewrite length_array_set. lia.
    + intros k x p Hx. rewrite run_results. simpl.
      assert (∀ k', k' ≠ s →
        Js.array_get
          match processor s y with
          | Throws e => Js.array_set s (failure y e) (results st)
          | _ => results st
          end k' = Js.array_get (results st) k') as Hother.
      { intros k' Hk'. destruct (processor s y); try done.
        by rewrite array_get_set_ne. }
      insert_cases i k.
      * intros [= <-]. rewrite Hother by done. by apply (Hres _ _ _ Hx Hpi).
      * insert_cases s k.
        -- intros [= <-]. assert (x = y) as -> by congruence.
           specialize (Hres _ _ _ Hy Hps). simpl in Hres.
           unfold begun_phase, outcome_of.
           destruct (processor s y) eqn:Hb; try (split; [congruence|done]).
           eexists. split; [done|]. by rewrite array_get_set_eq.
        -- intros Hp. rewrite Hother by done. by apply Hres.
Qed.

Lemma Inv_step ev st st' :
  Inv (length items) st → step items processor ev st = Some st' →
  Inv (length items) st'.
Proof. destruct ev; simpl; eauto using Inv_settle, Inv_finish. Qed.

Lemma Inv_exec sched st st' :
  Inv (length items) st → exec items processor sched st = Some st' →
  Inv (length items) st'.
Proof.
  revert st. induction sched as [|ev sched IH]; intros st HI Hex; simpl in Hex.
  - by simplify_eq.
  - destruct (step items processor ev st) as [st1|] eqn:Hs; [|done].
    eauto using Inv_step.
Qed.

Lemma Inv_execution sched st :
  execution concurrency items processor sched = Some st →
  Inv (length items) st.
Proof. apply Inv_exec, Inv_submit. Qed.

(** *** What the invariant gives *)

Lemma Inv_activeCount_nonneg m st : Inv m st → (0 ≤ activeCount st)%Z.
Proof. intros HI. rewrite (inv_count _ _ _ _ _ HI). lia. Qed.

Lemma Inv_executing m st :
  Inv m st → (Z.of_nat (executing st) ≤ activeCount st)%Z.
Proof.
  intros HI. rewrite (inv_count _ _ _ _ _ HI). unfold executing.
  apply inj_le, count_le. by intros [].
Qed.

(** A closure between its start and its [finally] block holds a slot. *)
Lemma Inv_active_pos m st i p :
  Inv m st → phase st !! i = Some p → is_active p = true →
  (1 ≤ activeCount st)%Z.
Proof.
  intros HI Hp Hact. rewrite (inv_count _ _ _ _ _ HI).
  pose proof (count_lookup is_active _ _ _ Hp Hact). lia.
Qed.

(** Once every promise of [enqueue] is resolved, [results] has one slot
    per item and slot [i] holds the outcome of [items[i]]. *)
Lemma Inv_resolved st :
  Inv (length items) st → all_resolved st = true →
  length (results st) = length items ∧
  queue st = [] ∧ started st = tasks items ∧
  ∀ i x, items !! i = Some x →
    ∃ o, outcome_of processor i x = Some o ∧ item o = x ∧
         results st !! i = Some (Some o).
Proof.
  intros HI Hall. unfold all_resolved in Hall.
  assert (Hslots : ∀ i x, items !! i = Some x →
    ∃ o, outcome_of processor i x = Some o ∧ item o = x ∧
         results st !! i = Some (Some o)).
  { intros i x Hx.
    destruct (lookup_lt_is_Some_2 (phase st) i) as [p Hp].
    { rewrite (inv_len _ _ _ _ _ HI). by eapply lookup_lt_Some. }
    assert (p = Done) as -> by (by eapply all_done_lookup).
    destruct (inv_res _ _ _ _ _ HI i x Done Hx Hp) as (o & Ho & Hget).
    exists o. split_and!; [done| |by apply array_get_Some].
    unfold outcome_of in Ho. by destruct (processor i x); simplify_eq. }
  assert (Hstarted : length (started st) = length items).
  { pose proof (Inv_split _ _ HI) as Hsplit.
    destruct (queue st) as [|t q] eqn:Hq; [simpl in Hsplit; lia|]. exfalso.
    simpl in Hsplit.
    destruct (lookup_lt_is_Some_2 (phase st) (length (started st))) as [p Hp].
    { rewrite (inv_len _ _ _ _ _ HI). lia. }
    assert (p = Done) as -> by (by eapply all_done_lookup).
    pose proof (Inv_begun _ _ _ _ HI Hp eq_refl). lia. }
  pose proof (Inv_split _ _ HI) as Hsplit.
  assert (Hq : queue st = []) by (apply length_zero_iff_nil; lia).
  split_and!; [|done| |done].
  - apply Nat.le_antisymm; [apply (inv_reslen _ _ _ _ _ HI)|].
    destruct (length items) as [|k] eqn:Hn; [lia|].
    destruct (lookup_lt_is_Some_2 items k) as [x Hx]; [lia|].
    destruct (Hslots k x Hx) as (o & _ & _ & Ho).
    apply lookup_lt_Some in Ho. lia.
  - pose proof (Inv_order_all _ HI) as Hord. by rewrite Hq, app_nil_r in Hord.
Qed.

Lemma all_done_count l : forallb is_done l = true → count is_active l = 0.
Proof.
  induction l as [|a l IH]; simpl; [done|].
  intros [Ha Hl]%andb_prop. rewrite (IH Hl). by destruct a.
Qed.

(** When the promise of [process] is fulfilled the instance is back in the
    state the constructor left it in, ready for another call. *)
Lemma Inv_resolved_instance st :
  Inv (length items) st → all_resolved st = true →
  activeCount st = 0%Z ∧ queue st = [].
Proof.
  intros HI Hall. destruct (Inv_resolved _ HI Hall) as (_ & Hq & _).
  split; [|done]. rewrite (inv_count _ _ _ _ _ HI).
  unfold all_resolved in Hall. by rewrite (all_done_count _ Hall).
Qed.

(** Every turn of the event loop uses up one of the remaining events. *)
Lemma step_remaining ev st st' :
  Inv (length items) st → step items processor ev st = Some st' →
  remaining (phase st') < remaining (phase st).
Proof.
  intros HI Hst. destruct ev as [i|i]; simpl in Hst.
  - unfold settle in Hst.
    destruct (phase st !! i) as [[]|] eqn:Hpi; try done.
    destruct (items !! i) as [x|]; try done.
    pose proof (remaining_insert _ _ _ Recorded Hpi) as Hr. simpl in Hr.
    destruct (processor i x); simplify_eq/=; lia.
  - unfold finish in Hst.
    destruct (phase st !! i) as [[]|] eqn:Hpi; try done.
    injection Hst as <-. simpl. unfold run_next. simpl.
    pose proof (Inv_begun _ _ _ _ HI Hpi eq_refl) as Hbeg.
    destruct (queue st) as [|[j y] q] eqn:Hq; simpl.
    + pose proof (remaining_insert _ _ _ Done Hpi) as Hr. simpl in Hr. lia.
    + rewrite run_phase. simpl.
      pose proof (Inv_split _ _ HI) as Hsplit. rewrite Hq in Hsplit.
      simpl in Hsplit.
      assert (Htj : tasks items !! length (started st) = Some (j, y)).
      { rewrite <- (Inv_order_all _ HI), Hq. by rewrite list_lookup_middle. }
      apply lookup_tasks_Some in Htj as [-> Hy].
      destruct (lookup_lt_is_Some_2 (phase st) (length (started st)))
        as [p Hp]; [rewrite (inv_len _ _ _ _ _ HI); lia|].
      assert (p = Queued) as ->.
      { pose proof (inv_phase _ _ _ _ _ HI _ _ Hp) as H.
        repeat case_decide; try lia; done. }
      pose proof (remaining_insert _ _ _
                    (begun_phase processor (length (started st)) y) Hp) as Hr1.
      assert (<[length (started st) :=
                  begun_phase processor (length (started st)) y]> (phase st)
              !! i = Some Recorded) as Hpi'
        by (rewrite list_lookup_insert_ne by lia; done).
      pose proof (remaining_insert _ _ _ Done Hpi') as Hr2.
      pose proof (begun_phase_weight (length (started st)) y).
      simpl in Hr1, Hr2. lia.
Qed.

Lemma exec_remaining sched st st' :
  Inv (length items) st → exec items processor sched st = Some st' →
  remaining (phase st') + length sched ≤ remaining (phase st).
Proof.
  revert st. induction sched as [|ev sched IH]; intros st HI Hex; simpl in Hex.
  - simplify_eq. simpl. lia.
  - destruct (step items processor ev st) as [st1|] eqn:Hs; [|done].
    pose proof (step_remaining _ _ _ HI Hs).
    pose proof (IH st1 (Inv_step _ _ _ HI Hs) Hex). simpl. lia.
Qed.

Lemma exec_app sched1 sched2 st :
  exec items processor (sched1 ++ sched2) st =
  match exec items processor sched1 st with
  | Some st1 => exec items processor sched2 st1
  | None => None
  end.
Proof.
  revert st. induction sched1 as [|ev sched1 IH]; intros st; simpl; [done|].
  by destruct (step items processor ev st).
Qed.

(** With a slot to run in and operations that all end, some closure can
    always be resumed until every promise of [enqueue] is resolved. *)
Lemma Inv_progress st :
  Inv (length items) st → (1 ≤ concurrency)%Z →
  (∀ i x, items !! i = Some x → processor i x ≠ Hangs) →
  all_resolved st = false →
  ∃ ev st', step items processor ev st = Some st'.
Proof.
  intros HI Hk Hends Hnot.
  destruct (Nat.eq_dec (count is_active (phase st)) 0) as [Hzero|Hpos].
  - exfalso. apply not_true_iff_false in Hnot. apply Hnot.
    assert (Hq : queue st = []).
    { destruct (queue st) eqn:Hq; [done|]. exfalso.
      assert (concurrency ≤ activeCount st)%Z
        by (apply (inv_full _ _ _ _ _ HI); congruence).
      rewrite (inv_count _ _ _ _ _ HI) in *. lia. }
    pose proof (Inv_split _ _ HI) as Hsplit. rewrite Hq in Hsplit.
    simpl in Hsplit.
    apply all_done_intro. intros i p Hp.
    pose proof (inv_phase _ _ _ _ _ HI i p Hp) as Hph.
    pose proof (lookup_lt_Some _ _ _ Hp) as Hi.
    rewrite (inv_len _ _ _ _ _ HI) in Hi.
    case_decide; [|lia].
    destruct p; try done; exfalso.
    + assert (0 < count is_active (phase st)); [|lia].
      pose proof (count_insert is_active _ _ _ Done Hp) as Hc. simpl in Hc. lia.
    + assert (0 < count is_active (phase st)); [|lia].
      pose proof (count_insert is_active _ _ _ Done Hp) as Hc. simpl in Hc. lia.
  - destruct (count_pos is_active (phase st)) as (i & p & Hp & Hact); [lia|].
    pose proof (lookup_lt_Some _ _ _ Hp) as Hi.
    rewrite (inv_len _ _ _ _ _ HI) in Hi.
    destruct (lookup_lt_is_Some_2 items i) as [x Hx]; [done|].
    destruct p; try done.
    + exists (Settle i). simpl. unfold settle. rewrite Hp, Hx.
      destruct (inv_res _ _ _ _ _ HI i x Running Hx Hp) as [Hnt _].
      specialize (Hends i x Hx).
      destruct (processor i x) eqn:Hb; eauto; [by destruct (Hnt e)|done].
    + exists (Finish i). simpl. unfold finish. rewrite Hp. eauto.
Qed.

(** Under the same conditions every execution can be continued to the
    point where [Promise.all] is fulfilled. *)
Lemma Inv_completes st :
  Inv (length items) st → (1 ≤ concurrency)%Z →
  (∀ i x, items !! i = Some x → processor i x ≠ Hangs) →
  ∃ rest st', exec items processor rest st = Some st' ∧
              all_resolved st' = true.
Proof.
  intros HI Hk Hends.
  remember (remaining (phase st)) as w eqn:Hw.
  revert st HI Hw. induction w as [w IH] using lt_wf_ind. intros st HI ->.
  destruct (all_resolved st) eqn:Hall.
  - by exists [], st.
  - destruct (Inv_progress _ HI Hk Hends Hall) as (ev & st1 & Hs).
    pose proof (step_remaining _ _ _ HI Hs) as Hlt.
    destruct (IH _ Hlt st1 (Inv_step _ _ _ HI Hs) eq_refl)
      as (rest & st' & Hex & Hdone).
    exists (ev :: rest), st'. simpl. by rewrite Hs.
Qed.

End runner_facts.

(** *** The stated properties of the runner *)

(** The record a closure stores, spelled out: the item with the value
    the operation fulfilled with and no error, or the item with the error
    it threw or rejected with and no result. *)
Lemma outcome_of_spelled {T R E} (processor : nat → T → Behaviour R E) i x o :
  outcome_of processor i x = Some o →
  match processor i x with
  | Fulfils r => o = mkOutcome x (Some r) None
  | Throws e | Rejects e => o = mkOutcome x None (Some e)
  | Hangs => False
  end.
Proof.
  unfold outcome_of, success, failure.
  destruct (processor i x); intros; by simplify_eq.
Qed.

(** C1. For every list [items] and every operation, the array [process]
    resolves with has one slot per item, and slot [i] is the record of
    [items[i]] with the value its operation fulfilled with (and no error),
    or with the error its operation threw or rejected with (and no
    result), whatever the order in which the operations end; the promise is
    fulfilled only when every closure is done.  With at least one slot and
    operations that all end, no execution has more than two events per
    item and each one extends to a fulfilled promise. *)
Theorem process_preserves_order {T R E} (concurrency : Z) (items : list T)
    (processor : nat → T → Behaviour R E) (sched : list Event)
    (st : State T R E) :
  execution concurrency items processor sched = Some st →
  (∀ v, process_promise st = Fulfilled v →
     length v = length items ∧
     ∀ i x, items !! i = Some x →
       phase st !! i = Some Done ∧
       ∃ o, v !! i = Some (Some o) ∧ item o = x ∧
            match processor i x with
            | Fulfils r =>
                o = mkOutcome x (Some r) None
            | Throws e | Rejects e =>
                o = mkOutcome x None (Some e)
            | Hangs => False
            end) ∧
  ((1 ≤ concurrency)%Z →
   (∀ i x, items !! i = Some x → processor i x ≠ Hangs) →
   length sched ≤ 2 * length items ∧
   ∃ rest st' v,
     execution concurrency items processor (sched ++ rest) = Some st' ∧
     process_promise st' = Fulfilled v).
Proof.
  intros Hex. pose proof (Inv_execution _ _ _ _ _ Hex) as HI. split.
  - intros v Hv. unfold process_promise in Hv.
    destruct (all_resolved st) eqn:Hall; [|done]. injection Hv as <-.
    destruct (Inv_resolved _ _ _ _ HI Hall) as (Hlen & _ & _ & Hslots).
    split; [done|]. intros i x Hx.
    destruct (Hslots i x Hx) as (o & Ho & Hitem & Hv). split.
    + destruct (lookup_lt_is_Some_2 (phase st) i) as [p Hp].
      { rewrite (inv_len _ _ _ _ _ HI). by eapply lookup_lt_Some. }
      by rewrite Hp, (all_done_lookup _ _ _ Hall Hp).
    + exists o. split_and!; [done|done|]. by apply outcome_of_spelled.
  - intros Hk Hends. split.
    + pose proof (exec_remaining _ _ _ _ _ _ (Inv_submit _ _ _) Hex) as Hrem.
      pose proof (remaining_bound (phase (submit concurrency items processor))).
      rewrite (inv_len _ _ _ _ _ (Inv_submit concurrency items processor)) in *.
      lia.
    + destruct (Inv_completes _ _ _ _ HI Hk Hends) as (rest & st' & Hrest & Hall).
      exists rest, st', (results st'). split.
      * unfold execution in *. by rewrite exec_app, Hex.
      * unfold process_promise. by rewrite Hall.
Qed.

Lemma process_preserves_order_witness :
  execution 2 Scenario.items Scenario.processor Scenario.schedule
  = Some Scenario.final ∧
  length (results Scenario.final) = length Scenario.items ∧
  ∃ o, results Scenario.final !! 1 = Some (Some o) ∧
       o = mkOutcome "b.jpg" None (Some "cannot caption b.jpg").
Proof.
  pose proof (proj1 (process_preserves_order 2 Scenario.items
                       Scenario.processor Scenario.schedule Scenario.final
                       eq_refl)
                (results Scenario.final) eq_refl) as [Hlen Hslots].
  split; [reflexivity|]. split; [exact Hlen|].
  destruct (proj2 (Hslots 1 "b.jpg" eq_refl)) as (o & Ho & _ & Hrec).
  exists o. split; [exact Ho|exact Hrec].
Defined.

(** What the [finally] block of [run] does to the counter, the queue and
    the log of calls. *)
Lemma finish_effect {T R E} (processor : nat → T → Behaviour R E) i
    (st st' : State T R E) :
  finish processor i st = Some st' →
  phase st !! i = Some Recorded ∧
  match queue st with
  | [] =>
      activeCount st' = (activeCount st - 1)%Z ∧ queue st' = [] ∧
      started st' = started st
  | t :: q =>
      activeCount st' = (activeCount st - 1 + 1)%Z ∧ queue st' = q ∧
      started st' = started st ++ [t]
  end.
Proof.
  unfold finish. destruct (phase st !! i) as [[]|]; try done.
  intros [= <-]. split; [done|]. unfold run_next. simpl.
  destruct (queue st) as [|[j y] q] eqn:Hq; simpl; [by rewrite Hq|].
  by rewrite run_activeCount, run_queue, run_started.
Qed.

(** C2. For every limit [k ≥ 1] and every input, [activeCount] stays
    between 0 and [k] and bounds the number of operations whose promise is
    outstanding, after each call of [enqueue] made by [items.map] and after
    every turn of the event loop, and also between the decrement and the
    increment inside a [finally] block; [enqueue] starts the operation at
    once exactly when [activeCount < k], and otherwise appends its thunk to
    the queue and starts nothing. *)
Theorem concurrency_never_exceeded {T R E} (concurrency : Z) (items : list T)
    (processor : nat → T → Behaviour R E) :
  (1 ≤ concurrency)%Z →
  (∀ m, m ≤ length items →
     let st := submit_prefix concurrency items processor m in
     (0 ≤ activeCount st ≤ concurrency)%Z ∧
     (Z.of_nat (executing st) ≤ activeCount st)%Z) ∧
  (∀ sched st, execution concurrency items processor sched = Some st →
     (0 ≤ activeCount st ≤ concurrency)%Z ∧
     (Z.of_nat (executing st) ≤ activeCount st)%Z ∧
     (∀ i st', finish processor i st = Some st' →
        (0 ≤ activeCount st - 1 < concurrency)%Z)) ∧
  (∀ (st : State T R E) i x,
     ((activeCount st < concurrency)%Z →
      enqueue concurrency processor i x st = run processor i x st ∧
      started (enqueue concurrency processor i x st) = started st ++ [(i, x)] ∧
      queue (enqueue concurrency processor i x st) = queue st ∧
      activeCount (enqueue concurrency processor i x st)
      = (activeCount st + 1)%Z) ∧
     ((concurrency ≤ activeCount st)%Z →
      queue (enqueue concurrency processor i x st) = queue st ++ [(i, x)] ∧
      started (enqueue concurrency processor i x st) = started st ∧
      activeCount (enqueue concurrency processor i x st) = activeCount st)).
Proof.
  intros Hk.
  assert (Hbound : ∀ m (st : State T R E),
    Inv concurrency items processor m st →
    (0 ≤ activeCount st ≤ concurrency)%Z ∧
    (Z.of_nat (executing st) ≤ activeCount st)%Z).
  { intros m st HI. split_and!.
    - by eapply Inv_activeCount_nonneg.
    - pose proof (inv_bound _ _ _ _ _ HI). lia.
    - by eapply Inv_executing. }
  split_and!.
  - intros m Hm. simpl. apply (Hbound m). by apply Inv_submit_prefix.
  - intros sched st Hex. pose proof (Inv_execution _ _ _ _ _ Hex) as HI.
    destruct (Hbound _ _ HI) as [Hrange Hexec]. split_and!; try done; try lia.
    intros i st' Hfin. destruct (finish_effect _ _ _ _ Hfin) as [Hp _].
    pose proof (Inv_active_pos _ _ _ _ _ _ _ HI Hp eq_refl). lia.
  - intros st i x. unfold enqueue. split.
    + intros Hlt. apply Z.ltb_lt in Hlt. rewrite Hlt.
      by rewrite run_started, run_queue, run_activeCount.
    + intros Hge. apply Z.ltb_ge in Hge. by rewrite Hge.
Qed.

Lemma concurrency_never_exceeded_witness :
  (0 ≤ activeCount Scenario.final ≤ 2)%Z ∧
  (Z.of_nat (executing Scenario.final) ≤ activeCount Scenario.final)%Z.
Proof.
  pose proof (proj1 (proj2 (concurrency_never_exceeded 2 Scenario.items
                              Scenario.processor ltac:(lia)))
                Scenario.schedule Scenario.final eq_refl) as H.
  exact (conj (proj1 H) (proj1 (proj2 H))).
Defined.





(** With no slot, [items.map] starts nothing and queues every thunk. *)
Lemma submit_prefix_no_slot {T R E} (concurrency : Z) (items : list T)
    (processor : nat → T → Behaviour R E) m :
  (concurrency ≤ 0)%Z → m ≤ length items →
  started (submit_prefix concurrency items processor m) = [].
Proof.
  intros Hk. induction m as [|m IH]; intros Hm; [done|].
  destruct (lookup_lt_is_Some_2 items m) as [x Hx]; [lia|].
  rewrite (submit_prefix_S _ _ _ _ _ Hx). unfold enqueue.
  pose proof (Inv_activeCount_nonneg _ _ _ _ _
                (Inv_submit_prefix concurrency items processor m ltac:(lia))).
  replace (_ <? _)%Z with false by (symmetry; apply Z.ltb_ge; lia).
  simpl. apply IH. lia.
Qed.

(** C5. For every [concurrency ≤ 0] and every non-empty input, [process]
    starts no operation and its promise stays pending: the admission test
    fails for every item, every thunk is queued, no event can happen, and
    so nothing ever takes a thunk off the queue. *)
Theorem nonpositive_concurrency_never_resolves {T R E} (concurrency : Z)
    (items : list T) (processor : nat → T → Behaviour R E) :
  (concurrency ≤ 0)%Z → items ≠ [] →
  constructor (Some concurrency) = concurrency ∧
  started (submit concurrency items processor) = [] ∧
  queue (submit concurrency items processor) = tasks items ∧
  (∀ ev, step items processor ev (submit concurrency items processor) = None) ∧
  (∀ sched st, execution concurrency items processor sched = Some st →
     sched = [] ∧ started st = [] ∧ queue st = tasks items ∧
     process_promise st = Pending).
Proof.
  intros Hk Hne.
  pose proof (Inv_submit concurrency items processor) as HI.
  pose proof (submit_prefix_no_slot concurrency items processor
                (length items) Hk ltac:(lia)) as Hst.
  rewrite submit_prefix_all in Hst.
  pose proof (Inv_order_all _ _ _ _ HI) as Hord.
  rewrite Hst in Hord. simpl in Hord.
  assert (Hqueued : ∀ i p,
    phase (submit concurrency items processor) !! i = Some p → p = Queued).
  { intros i p Hp. pose proof (inv_phase _ _ _ _ _ HI i p Hp) as Hph.
    pose proof (lookup_lt_Some _ _ _ Hp) as Hi.
    rewrite (inv_len _ _ _ _ _ HI) in Hi. rewrite Hst in Hph. simpl in Hph.
    repeat case_decide; try lia; done. }
  assert (Hstuck : ∀ ev,
    step items processor ev (submit concurrency items processor) = None).
  { intros [i|i]; simpl; unfold settle, finish;
      destruct (phase (submit concurrency items processor) !! i) as [p|] eqn:Hp;
      try done; by rewrite (Hqueued i p Hp). }
  assert (Hpending :
    process_promise (submit concurrency items processor) = Pending).
  { unfold process_promise.
    destruct (all_resolved _) eqn:Hall; [exfalso|done].
    destruct items as [|x items'] eqn:Hitems; [done|].
    destruct (lookup_lt_is_Some_2
                (phase (submit concurrency (x :: items') processor)) 0)
      as [p Hp]; [rewrite (inv_len _ _ _ _ _ HI); simpl; lia|].
    pose proof (Hqueued 0 p Hp). pose proof (all_done_lookup _ _ _ Hall Hp).
    congruence. }
  split_and!; try done.
  intros [|ev sched] st Hex; unfold execution in Hex; simpl in Hex.
  - by simplify_eq.
  - by rewrite Hstuck in Hex.
Qed.

Lemma nonpositive_concurrency_never_resolves_witness :
  started (submit 0 Scenario.items Scenario.processor) = [] ∧
  process_promise (submit 0 Scenario.items Scenario.processor) = Pending.
Proof.
  pose proof (nonpositive_concurrency_never_resolves 0 Scenario.items
                Scenario.processor ltac:(lia) ltac:(discriminate)) as H.
  split; [exact (proj1 (proj2 H))|].
  exact (proj2 (proj2 (proj2 (proj2 (proj2 (proj2 (proj2 H))) [] _ eq_refl)))).
Defined.

(** C6. On the empty list, whatever the operation and the limit, the
    promise of [process] is fulfilled with the empty array as soon as the
    synchronous part has run, before any event, and the operation is never
    called, at that point or later. *)
Theorem empty_input_resolves_at_once {T R E} (concurrency : Z)
    (processor : nat → T → Behaviour R E) :
  process concurrency [] processor [] = Some (Fulfilled []) ∧
  execution concurrency [] processor []
  = Some (submit concurrency [] processor) ∧
  process_promise (submit concurrency [] processor) = Fulfilled [] ∧
  started (submit concurrency [] processor) = [] ∧
  (∀ sched st, execution concurrency [] processor sched = Some st →
     started st = [] ∧ process_promise st = Fulfilled []).
Proof.
  split_and!; try done.
  intros sched st Hex. pose proof (Inv_execution _ _ _ _ _ Hex) as HI.
  pose proof (Inv_order_all _ _ _ _ HI) as Hord. simpl in Hord.
  apply app_eq_nil in Hord as [Hs _]. split; [done|].
  pose proof (inv_len _ _ _ _ _ HI) as Hlen.
  pose proof (inv_reslen _ _ _ _ _ HI) as Hrl. simpl in Hlen, Hrl.
  unfold process_promise, all_resolved.
  destruct (phase st); [|done]. destruct (results st); [done|simpl in Hrl; lia].
Qed.

Lemma outcome_of_with_behaviour_ne {T R E}
    (processor : nat → T → Behaviour R E) j b i x :
  i ≠ j →
  outcome_of (with_behaviour processor j b) i x = outcome_of processor i x.
Proof. intros Hne. unfold outcome_of, with_behaviour. by case_decide. Qed.

(** C3. If the operation for item [j] throws or rejects with [e], the
    promise of [process] is never rejected; as soon as the closure has
    recorded its outcome, slot [j] is the record of item [j] with error [e]
    and no result; the array a run resolves with differs only in slot [j]
    from the array of any run in which item [j] succeeds, where slot [j]
    is the record with that value and no error; and, with at least one slot
    and operations that all end, every execution still extends to a
    fulfilled promise. *)
Theorem failure_is_isolated {T R E} (concurrency : Z) (items : list T)
    (processor : nat → T → Behaviour R E) (j : nat) (xj : T) (e : E)
    (sched : list Event) (st : State T R E) :
  items !! j = Some xj →
  processor j xj = Throws e ∨ processor j xj = Rejects e →
  execution concurrency items processor sched = Some st →
  (∀ e', process_promise st ≠ Rejected e') ∧
  (phase st !! j = Some Recorded ∨ phase st !! j = Some Done →
   Js.array_get (results st) j = Some (mkOutcome xj None (Some e))) ∧
  (∀ v, process_promise st = Fulfilled v →
     v !! j = Some (Some (mkOutcome xj None (Some e))) ∧
     ∀ r sched' st' v',
       execution concurrency items (with_behaviour processor j (Fulfils r))
         sched' = Some st' →
       process_promise st' = Fulfilled v' →
       v' !! j = Some (Some (mkOutcome xj (Some r) None)) ∧
       length v' = length v ∧
       ∀ i, i ≠ j → v' !! i = v !! i) ∧
  ((1 ≤ concurrency)%Z →
   (∀ i x, items !! i = Some x → processor i x ≠ Hangs) →
   ∃ rest st' v,
     execution concurrency items processor (sched ++ rest) = Some st' ∧
     process_promise st' = Fulfilled v).
Proof.
  intros Hxj Hfail Hex. pose proof (Inv_execution _ _ _ _ _ Hex) as HI.
  assert (Hout : ∀ o, outcome_of processor j xj = Some o →
                      o = mkOutcome xj None (Some e)).
  { intros o Ho. apply outcome_of_spelled in Ho.
    by destruct Hfail as [Hf | Hf]; rewrite Hf in Ho. }
  split_and!.
  - intros e'. unfold process_promise. by destruct (all_resolved st).
  - intros [Hp|Hp];
      destruct (inv_res _ _ _ _ _ HI j xj _ Hxj Hp) as (o & Ho & Hget);
      by rewrite Hget, (Hout o Ho).
  - intros v Hv. unfold process_promise in Hv.
    destruct (all_resolved st) eqn:Hall; [|done]. injection Hv as <-.
    destruct (Inv_resolved _ _ _ _ HI Hall) as (Hlen & _ & _ & Hslots).
    split.
    { destruct (Hslots j xj Hxj) as (o & Ho & _ & Hv).
      by rewrite Hv, (Hout o Ho). }
    intros r sched' st' v' Hex' Hv'.
    pose proof (Inv_execution _ _ _ _ _ Hex') as HI'.
    unfold process_promise in Hv'.
    destruct (all_resolved st') eqn:Hall'; [|done]. injection Hv' as <-.
    destruct (Inv_resolved _ _ _ _ HI' Hall') as (Hlen' & _ & _ & Hslots').
    split_and!.
    + destruct (Hslots' j xj Hxj) as (o & Ho & _ & Hv).
      apply outcome_of_spelled in Ho. unfold with_behaviour in Ho.
      case_decide; [|done]. by rewrite Hv, Ho.
    + congruence.
    + intros i Hne. destruct (items !! i) as [x|] eqn:Hx.
      * destruct (Hslots i x Hx) as (o & Ho & _ & ->).
        destruct (Hslots' i x Hx) as (o' & Ho' & _ & ->).
        rewrite outcome_of_with_behaviour_ne in Ho' by done. congruence.
      * apply lookup_ge_None in Hx.
        rewrite !lookup_ge_None_2 by lia. done.
  - intros Hk Hends.
    destruct (Inv_completes _ _ _ _ HI Hk Hends) as (rest & st' & Hrest & Hall).
    exists rest, st', (results st'). split.
    + unfold execution in *. by rewrite exec_app, Hex.
    + unfold process_promise. by rewrite Hall.
Qed.

Lemma failure_is_isolated_witness :
  results Scenario.final !! 1
  = Some (Some (mkOutcome "b.jpg" None (Some "cannot caption b.jpg"))).
Proof.
  exact (proj1 (proj1 (proj2 (proj2
           (failure_is_isolated 2 Scenario.items Scenario.processor 1 "b.jpg"
              "cannot caption b.jpg" Scenario.schedule Scenario.final
              eq_refl (or_intror eq_refl) eq_refl)))
           (results Scenario.final) eq_refl)).
Defined.

(** Two slots and three files: the third file waits until one of the first
    two has gone through its [finally] block, and the array comes back in
    input order although the operations ended in another order. *)
Example third_item_waits_for_a_slot :
  started (submit 2 Scenario.items Scenario.processor)
  = [(0, "a.jpg"); (1, "b.jpg")] ∧
  queue (submit 2 Scenario.items Scenario.processor) = [(2, "c.jpg")] ∧
  step Scenario.items Scenario.processor (Settle 2)
    (submit 2 Scenario.items Scenario.processor) = None ∧
  (started <$> execution 2 Scenario.items Scenario.processor
                 [Settle 1; Finish 1])
  = Some [(0, "a.jpg"); (1, "b.jpg"); (2, "c.jpg")] ∧
  process 2 Scenario.items Scenario.processor Scenario.schedule
  = Some (Fulfilled (results Scenario.final)).
Proof. repeat split. Qed.

(** ** The metadata context *)

Import Effect Json ImageProcessor CaptionGenerator.

(** With [||] an empty legacy caption is passed over: the description is
    the context caption whenever it is the first non-empty field. *)
Lemma Index_description_used (metadata : ExifMetadata) (d : string) :
  Caption_Abstract metadata = Some "" →
  Description metadata = Some d → d ≠ "" →
  caption (Index.existingMetadata metadata) = Some d.
Proof.
  intros Hc Hd Hne. unfold Index.existingMetadata, Index.context_of. simpl.
  rewrite Hc, Hd. unfold Js.or_else. simpl.
  destruct d; [done|]. done.
Qed.

Lemma Index_description_used_witness :
  caption (Index.existingMetadata
             (mkExif (Some "") (Some "Sunset at the pier") None None None []))
  = Some "Sunset at the pier".
Proof.
  apply Index_description_used; [reflexivity|reflexivity|discriminate].
Defined.

(** With [??] an empty legacy caption is selected, since it is defined, and
    then dropped by the guard [if (existingCaption)]: no caption reaches
    the context, whatever the description holds. *)
Lemma IndexNullish_empty_caption_masks (metadata : ExifMetadata) :
  Caption_Abstract metadata = Some "" →
  caption (IndexNullish.existingMetadata metadata) = None.
Proof.
  intros Hc. unfold IndexNullish.existingMetadata, Index.context_of. simpl.
  by rewrite Hc.
Qed.

Lemma IndexNullish_empty_caption_masks_witness :
  caption (IndexNullish.existingMetadata
             (mkExif (Some "") (Some "Sunset at the pier") None None None []))
  = None.
Proof. apply IndexNullish_empty_caption_masks. reflexivity. Defined.

(** C7. On the mapping whose legacy caption is the empty string and whose
    description is [Sunset at the pier], [processImage] written with [||]
    takes the description as the context caption, and [processImage]
    written with [??] passes no caption at all. *)
Theorem nullish_caption_drops_description :
  let metadata :=
    mkExif (Some "") (Some "Sunset at the pier") None None None [] in
  Index.existingMetadata metadata
  = mkExisting (Some "Sunset at the pier") None ∧
  IndexNullish.existingMetadata metadata = mkExisting None None.
Proof. done. Qed.

(** ** The prompt *)

(** [join] is the concatenation with separators of the standard
    library. *)
Lemma join_concat (sep : string) (l : list string) :
  Js.join sep l = String.concat sep l.
Proof.
  induction l as [|x l IH]; [done|].
  destruct l as [|y l]; [done|].
  change (x +:+ sep +:+ Js.join sep (y :: l)
          = x +:+ sep +:+ String.concat sep (y :: l)).
  by rewrite IH.
Qed.

(** C8. When the metadata passed to [generateCaption] carries neither a
    caption nor a non-empty tag list (the argument is missing, or its
    caption is missing or empty and its tag list is missing or empty), the
    text of the request is the base prompt itself.  When it carries a
    non-empty caption or a non-empty tag list, the text is the tag applied
    to the three literal segments of lines 43-51 and to two values: the
    base prompt, and the context.  The context consists of the line
    [EXIF Caption: "c"] when there is a non-empty caption [c], and of the
    line [EXIF Keywords: ] followed by the tags separated by a comma and a
    space when there are tags, joined by a line feed; it is never empty.
    The segment after the context holds the instruction to include the
    names of the metadata.  With a tag that only interleaves segments and
    values, the text is the base prompt followed by the sentence about the
    metadata, the quoted context and that instruction. *)
Theorem prompt_extended_only_with_context
    (heredoc : list string → list string → string)
    {Buffer : Type} (base64 : Buffer → string)
    (g : Generator) (imageBuffer : Buffer)
    (existingMetadata : option ExistingMetadata) :
  ((∀ m, existingMetadata = Some m →
      (caption m = None ∨ caption m = Some "") ∧
      (tags m = None ∨ tags m = Some [])) →
   text (request heredoc base64 g imageBuffer existingMetadata) = prompt g) ∧
  (∀ m, existingMetadata = Some m →
     (∃ c, caption m = Some c ∧ c ≠ "") ∨ (∃ ts, tags m = Some ts ∧ ts ≠ []) →
     let newline := String (ascii_of_nat 10) "" in
     let quote := String (ascii_of_nat 34) "" in
     let margin := "            " in
     let lines :=
       match caption m with
       | Some (String a c) =>
           ["EXIF Caption: " +:+ quote +:+ String a c +:+ quote]
       | _ => []
       end ++
       match tags m with
       | Some (t :: ts) => ["EXIF Keywords: " +:+ String.concat ", " (t :: ts)]
       | _ => []
       end in
     let context := String.concat newline lines in
     let opening := newline +:+ margin in
     let middle :=
       " Use the image metadata to inform your caption." +:+ newline +:+
       newline +:+ margin +:+ "Image metadata: " +:+ quote +:+ quote +:+
       quote +:+ newline +:+ margin in
     let closing :=
       newline +:+ margin +:+ quote +:+ quote +:+ quote +:+ newline +:+
       newline +:+ margin +:+
       "Try to include any names from the metadata in your caption, but be careful not to infer too much."
       +:+ newline +:+ "          " in
     text (request heredoc base64 g imageBuffer existingMetadata)
     = heredoc [opening; middle; closing] [prompt g; context] ∧
     lines ≠ [] ∧
     context ≠ "" ∧
     text (request interleave base64 g imageBuffer existingMetadata)
     = opening +:+ prompt g +:+ middle +:+ context +:+ closing).
Proof.
  split.
  - destruct existingMetadata as [m|]; [|done]. intros Hm.
    destruct (Hm m eq_refl) as [Hc Ht]. simpl. unfold has_caption, has_tags.
    by destruct Hc as [-> | ->], Ht as [-> | ->].
  - intros m -> Hm.
    assert (Hcases :
      (∃ a c, caption m = Some (String a c)) ∨ (∃ t ts, tags m = Some (t :: ts))).
    { destruct Hm as [(c & Hc & Hne) | (ts & Hts & Hne)].
      - left. destruct c; [done|]. eauto.
      - right. destruct ts; [done|]. eauto. }
    clear Hm. destruct m as [c ts]. simpl in Hcases.
    assert (Htext : ∀ tag,
      text (request tag base64 g imageBuffer (Some (mkExisting c ts)))
      = tag enhanced_template
          [prompt g;
           String.concat nl
             (match c with
              | Some (String a c') =>
                  ["EXIF Caption: " +:+ dq +:+ String a c' +:+ dq]
              | _ => []
              end ++
              match ts with
              | Some (t :: ts') =>
                  ["EXIF Keywords: " +:+ String.concat ", " (t :: ts')]
              | _ => []
              end)]).
    { intros tag. simpl. unfold contextParts, has_caption, has_tags.
      simpl. rewrite join_concat. unfold caption_line, keywords_line.
      rewrite join_concat.
      destruct Hcases as [(a & c' & ->) | (t & ts' & ->)].
      - by destruct ts as [[|]|].
      - by destruct c as [[|]|]. }
    cbv zeta. simpl caption. simpl tags. split_and!.
    + exact (Htext heredoc).
    + destruct Hcases as [(a & c' & ->) | (t & ts' & ->)]; [done|].
      by destruct c as [[|]|].
    + destruct Hcases as [(a & c' & ->) | (t & ts' & ->)].
      * by destruct ts as [[|]|].
      * by destruct c as [[|]|].
    + rewrite (Htext interleave).
      change (interleave enhanced_template ?vs)
        with (interleave [nl +:+ indent 12;
                          " Use the image metadata to inform your caption."
                          +:+ nl +:+ nl +:+ indent 12 +:+ "Image metadata: "
                          +:+ triple_quote +:+ nl +:+ indent 12;
                          nl +:+ indent 12 +:+ triple_quote +:+ nl +:+ nl +:+
                          indent 12 +:+
                          "Try to include any names from the metadata in your caption, but be careful not to infer too much."
                          +:+ nl +:+ indent 10] vs).
      cbn [interleave]. done.
Qed.

(** The two prompts of a generator built without a custom prompt, when the
    tag only interleaves the segments and the values. *)
Example prompt_without_context :
  enhancedPrompt interleave (constructor interleave None)
    (Some (mkExisting (Some "") (Some [])))
  = interleave default_template [].
Proof. reflexivity. Qed.

Example prompt_with_context :
  enhancedPrompt interleave (mkGenerator "Describe the photo.")
    (Some (mkExisting (Some "Ann") (Some ["beach"; "2019"])))
  = nl +:+ indent 12 +:+ "Describe the photo." +:+
    " Use the image metadata to inform your caption." +:+ nl +:+ nl +:+
    indent 12 +:+ "Image metadata: " +:+ triple_quote +:+ nl +:+ indent 12 +:+
    "EXIF Caption: " +:+ dq +:+ "Ann" +:+ dq +:+ nl +:+
    "EXIF Keywords: beach, 2019" +:+
    nl +:+ indent 12 +:+ triple_quote +:+ nl +:+ nl +:+ indent 12 +:+
    "Try to include any names from the metadata in your caption, but be careful not to infer too much."
    +:+ nl +:+ indent 10.
Proof. reflexivity. Qed.

(** ** Reading and writing the metadata *)

Section tool_facts.
Variable subprocess : call → result string.
Variable JSON_parse : string → result json.
Variable path_join : list string → string.
Variable path_dirname path_basename : string → string.

(** A handler that returns makes the whole [try] statement return. *)
Lemma try_catch_returns {A} (m : io A) (fallback : A) (tr : list call) :
  ∃ a, (try_catch m (λ _, mret fallback) tr).1 = Ok a ∧
       (∀ e tr', m tr = (Throw e, tr') →
          try_catch m (λ _, mret fallback) tr = (Ok fallback, tr')) ∧
       (∀ b tr', m tr = (Ok b, tr') →
          try_catch m (λ _, mret fallback) tr = (Ok b, tr')).
Proof.
  unfold try_catch. destruct (m tr) as [[b|e] tr'] eqn:Hm.
  - exists b. split_and!; [done| |]; intros; by simplify_eq.
  - exists fallback. split_and!; [done| |]; intros; by simplify_eq.
Qed.

(** The three ways the [try] block of [readImageMetadata] fails. *)
Lemma readImageMetadata_try_failures (imagePath : string) (tr : list call)
    (e : thrown) :
  let invocation := mkCall exiftool ["-j"; imagePath] in
  (subprocess invocation = Throw e ∨
   (∃ stdout, subprocess invocation = Ok stdout ∧
              JSON_parse stdout = Throw e) ∨
   (∃ stdout raw, subprocess invocation = Ok stdout ∧
                  JSON_parse stdout = Ok raw ∧
                  (first_or_empty raw = Throw e ∨
                   ∃ first, first_or_empty raw = Ok first ∧
                            ExifMetadataSchema_parse first = Throw e))) →
  readImageMetadata_try subprocess JSON_parse imagePath tr
  = (Throw e, tr ++ [invocation]).
Proof.
  simpl. unfold readImageMetadata_try, execFileAsync, lift.
  unfold mbind, io_mbind, io_bind.
  intros [Hs | [(out & Hs & Hj) | (out & raw & Hs & Hj & Hrest)]];
    rewrite Hs; [done| |]; rewrite Hj; [done|].
  destruct Hrest as [Hf | (first & Hf & Hz)]; rewrite Hf; [done|].
  by rewrite Hz.
Qed.

Lemma readImageMetadata_untyped_try_failures (imagePath : string)
    (tr : list call) (e : thrown) :
  let invocation := mkCall exiftool ["-j"; imagePath] in
  (subprocess invocation = Throw e ∨
   (∃ stdout, subprocess invocation = Ok stdout ∧
              JSON_parse stdout = Throw e) ∨
   (∃ stdout raw, subprocess invocation = Ok stdout ∧
                  JSON_parse stdout = Ok raw ∧
                  ImageProcessorUntyped.first_or_empty raw = Throw e)) →
  ImageProcessorUntyped.readImageMetadata_try subprocess JSON_parse
    imagePath tr
  = (Throw e, tr ++ [invocation]).
Proof.
  simpl. unfold ImageProcessorUntyped.readImageMetadata_try, execFileAsync, lift.
  unfold mbind, io_mbind, io_bind.
  intros [Hs | [(out & Hs & Hj) | (out & raw & Hs & Hj & Hf)]];
    rewrite Hs; [done| |]; rewrite Hj; [done|]. by rewrite Hf.
Qed.

(** C9. [readImageMetadata] never raises: for every path and every
    behaviour of the tool and of the parsers it returns a mapping, and
    whenever its [try] block fails, be it in the subprocess, in
    [JSON.parse], in the access to the first element or in the schema, that
    mapping is the empty one.  The same holds for the variant without a
    schema. *)
Theorem readImageMetadata_never_raises (imagePath : string) (tr : list call) :
  let invocation := mkCall exiftool ["-j"; imagePath] in
  ((∃ metadata,
      (readImageMetadata subprocess JSON_parse imagePath tr).1 = Ok metadata) ∧
   (∀ e tr',
      readImageMetadata_try subprocess JSON_parse imagePath tr
      = (Throw e, tr') →
      readImageMetadata subprocess JSON_parse imagePath tr = (Ok empty, tr')) ∧
   (∀ e,
      subprocess invocation = Throw e ∨
      (∃ stdout, subprocess invocation = Ok stdout ∧
                 JSON_parse stdout = Throw e) ∨
      (∃ stdout raw, subprocess invocation = Ok stdout ∧
                     JSON_parse stdout = Ok raw ∧
                     (first_or_empty raw = Throw e ∨
                      ∃ first, first_or_empty raw = Ok first ∧
                               ExifMetadataSchema_parse first = Throw e)) →
      readImageMetadata subprocess JSON_parse imagePath tr
      = (Ok empty, tr ++ [invocation]))) ∧
  ((∃ metadata,
      (ImageProcessorUntyped.readImageMetadata subprocess JSON_parse
         imagePath tr).1 = Ok metadata) ∧
   (∀ e tr',
      ImageProcessorUntyped.readImageMetadata_try subprocess JSON_parse
        imagePath tr = (Throw e, tr') →
      ImageProcessorUntyped.readImageMetadata subprocess JSON_parse
        imagePath tr = (Ok (JObj []), tr')) ∧
   (∀ e,
      subprocess invocation = Throw e ∨
      (∃ stdout, subprocess invocation = Ok stdout ∧
                 JSON_parse stdout = Throw e) ∨
      (∃ stdout raw, subprocess invocation = Ok stdout ∧
                     JSON_parse stdout = Ok raw ∧
                     ImageProcessorUntyped.first_or_empty raw = Throw e) →
      ImageProcessorUntyped.readImageMetadata subprocess JSON_parse
        imagePath tr = (Ok (JObj []), tr ++ [invocation]))).
Proof.
  simpl. unfold readImageMetadata, ImageProcessorUntyped.readImageMetadata.
  destruct (try_catch_returns
              (readImageMetadata_try subprocess JSON_parse imagePath)
              empty tr) as (m & Hm & Hfail & _).
  destruct (try_catch_returns
              (ImageProcessorUntyped.readImageMetadata_try subprocess
                 JSON_parse imagePath)
              (JObj []) tr) as (m' & Hm' & Hfail' & _).
  split; split_and!; eauto.
  - intros e He. eapply Hfail. by apply readImageMetadata_try_failures.
  - intros e He. eapply Hfail'.
    by apply readImageMetadata_untyped_try_failures.
Qed.

(** C10. [writeCaption] starts the tool once, with the three assignments of
    the caption to [Caption-Abstract], [Description] and
    [ImageDescription], the source path as it was given, and [-o] followed
    by the path built from the directory and the base name of the source;
    it returns when the tool succeeds and throws an [Error] whose message
    starts with [Failed to write caption to image: ] when the tool fails. *)
Theorem writeCaption_invocation (imagePath caption : string) :
  let invocation :=
    mkCall "/opt/homebrew/bin/exiftool"
      ["-overwrite_original";
       "-Caption-Abstract=" +:+ caption;
       "-Description=" +:+ caption;
       "-ImageDescription=" +:+ caption;
       imagePath;
       "-o";
       path_join [path_dirname imagePath; ".."; "output";
                  path_basename imagePath]] in
  let written :=
    writeCaption subprocess path_join path_dirname path_basename
      imagePath caption in
  calls written = [invocation] ∧
  (∀ stdout, subprocess invocation = Ok stdout → outcome written = Ok ()) ∧
  (∀ error, subprocess invocation = Throw error →
     ∃ detail,
       outcome written
       = Throw (new_Error ("Failed to write caption to image: " +:+ detail)) ∧
       is_Error (new_Error ("Failed to write caption to image: " +:+ detail))
       = true).
Proof.
  simpl. unfold calls, outcome, writeCaption, try_catch, execFileAsync.
  unfold mbind, io_mbind, io_bind, writeCaption_args, outputPath, exiftool.
  simpl. split_and!.
  - by destruct (subprocess _).
  - by intros stdout ->.
  - intros error ->. simpl. unfold writeCaption_error. eauto.
Qed.

End tool_facts.

(** A tool that always fails, and one that prints one record. *)
Example readImageMetadata_tool_fails :
  outcome (readImageMetadata
             (λ _, Throw (new_Error "spawn ENOENT")) (λ _, Ok JNull) "a.jpg")
  = Ok empty.
Proof. reflexivity. Qed.

Example readImageMetadata_bad_field :
  outcome (readImageMetadata
             (λ _, Ok "[{...}]")
             (λ _, Ok (JArr [JObj [("Description", JNum 2024)]])) "a.jpg")
  = Ok empty.
Proof. reflexivity. Qed.

Example readImageMetadata_record :
  outcome (readImageMetadata
             (λ _, Ok "[{...}]")
             (λ _, Ok (JArr [JObj [("SourceFile", JStr "a.jpg");
                                   ("Description", JStr "Pier");
                                   ("Keywords", JArr [JStr "sea"])]]))
             "a.jpg")
  = Ok (mkExif None (Some "Pier") None (Some (TagArray ["sea"])) None
          [("SourceFile", JStr "a.jpg")]).
Proof. reflexivity. Qed.

Example writeCaption_tool_fails :
  outcome (writeCaption
             (λ _, Throw (mkThrown true "Command failed" "Error: Command failed"
                            (Some "File not found")))
             (String.concat "/") (λ _, "input") (λ _, "a.jpg")
             "input/a.jpg" "A pier")
  = Throw (new_Error ("Failed to write caption to image: Command failed" +:+
                      nl +:+ "Details: File not found")).
Proof. reflexivity. Qed.

(** * Further properties *)

(** ** The runner *)

Lemma tasks_indices {T} (items : list T) :
  (tasks items).*1 = seq 0 (length items).
Proof.
  apply list_eq. intros i. rewrite list_lookup_fmap, lookup_tasks.
  destruct (items !! i) as [x|] eqn:Hx; simpl.
  - symmetry. apply lookup_seq. split; [done|]. by eapply lookup_lt_Some.
  - symmetry. apply lookup_ge_None. rewrite length_seq.
    by apply lookup_ge_None.
Qed.

(** X1. No operation is ever called twice: the indices of the calls made
    so far are distinct, every call is one of the tasks, no thunk still
    waiting has been called, and once the promise of [process] is fulfilled
    every task has been called exactly once, in submission order. *)
Theorem operations_called_once {T R E} (concurrency : Z) (items : list T)
    (processor : nat → T → Behaviour R E) (sched : list Event)
    (st : State T R E) :
  execution concurrency items processor sched = Some st →
  NoDup (started st).*1 ∧
  (∀ t, t ∈ started st → t ∈ tasks items ∧ t ∉ queue st) ∧
  (all_resolved st = true → started st = tasks items).
Proof.
  intros Hex. pose proof (Inv_execution _ _ _ _ _ Hex) as HI.
  pose proof (Inv_order_all _ _ _ _ HI) as Hord.
  assert (Hnd : NoDup ((started st).*1 ++ (queue st).*1)).
  { rewrite <- fmap_app, Hord, tasks_indices. apply NoDup_seq. }
  apply NoDup_app in Hnd as (Hs & Hdisj & _). split_and!.
  - done.
  - intros t Ht. split.
    + rewrite <- Hord. apply elem_of_app. by left.
    + intros Hq. apply (Hdisj t.1); by apply list_elem_of_fmap_2.
  - intros Hall. by destruct (Inv_resolved _ _ _ _ HI Hall) as (_ & _ & ? & _).
Qed.

Lemma operations_called_once_witness :
  NoDup (started StalledScenario.final).*1.
Proof.
  exact (proj1 (operations_called_once 2 StalledScenario.items
                  StalledScenario.processor StalledScenario.schedule
                  StalledScenario.final eq_refl)).
Defined.

(** X2. When the promise of [process] is fulfilled, the instance is back
    in the state its constructor left it in: [activeCount] is 0 and the
    queue is empty, so the same instance can serve another call. *)
Theorem instance_restored_after_process {T R E} (concurrency : Z)
    (items : list T) (processor : nat → T → Behaviour R E)
    (sched : list Event) (st : State T R E) :
  execution concurrency items processor sched = Some st →
  all_resolved st = true →
  activeCount st = 0%Z ∧ queue st = [].
Proof.
  intros Hex Hall. eapply Inv_resolved_instance; [|done].
  by eapply Inv_execution.
Qed.

Lemma instance_restored_after_process_witness :
  activeCount Scenario.final = 0%Z ∧ queue Scenario.final = [].
Proof.
  exact (instance_restored_after_process 2 Scenario.items Scenario.processor
           Scenario.schedule Scenario.final eq_refl eq_refl).
Defined.

(** X3. There is no timeout: if the promise of one operation never
    settles, its closure stays before its [finally] block, its slot of
    [results] stays empty, it keeps holding one of the slots of the runner,
    and the promise of [process] stays pending in every state the event
    loop can reach. *)
Theorem hanging_operation_blocks_process {T R E} (concurrency : Z)
    (items : list T) (processor : nat → T → Behaviour R E) (j : nat) (xj : T)
    (sched : list Event) (st : State T R E) :
  items !! j = Some xj →
  processor j xj = Hangs →
  execution concurrency items processor sched = Some st →
  process_promise st = Pending ∧
  (phase st !! j = Some Queued ∨ phase st !! j = Some Running) ∧
  Js.array_get (results st) j = None ∧
  (phase st !! j = Some Running → (1 ≤ activeCount st)%Z).
Proof.
  intros Hxj Hhang Hex. pose proof (Inv_execution _ _ _ _ _ Hex) as HI.
  destruct (lookup_lt_is_Some_2 (phase st) j) as [p Hp].
  { rewrite (inv_len _ _ _ _ _ HI). by eapply lookup_lt_Some. }
  pose proof (inv_res _ _ _ _ _ HI j xj p Hxj Hp) as Hres.
  pose proof (inv_phase _ _ _ _ _ HI j p Hp) as Hph.
  pose proof (lookup_lt_Some _ _ _ Hxj) as Hj.
  assert (Hnone : outcome_of processor j xj = None)
    by (unfold outcome_of; by rewrite Hhang).
  assert (Hcases : (p = Queued ∨ p = Running) ∧
                   Js.array_get (results st) j = None).
  { destruct p; try (destruct Hres as (o & Ho & _); congruence).
    - repeat case_decide; try lia; done.
    - auto.
    - destruct Hres. auto. }
  destruct Hcases as [Hp' Hget]. split_and!.
  - unfold process_promise. destruct (all_resolved st) eqn:Hall; [|done].
    pose proof (all_done_lookup _ _ _ Hall Hp). destruct Hp'; congruence.
  - rewrite Hp. destruct Hp' as [-> | ->]; auto.
  - done.
  - intros Hrun. by eapply Inv_active_pos.
Qed.

Lemma hanging_operation_blocks_process_witness :
  process_promise StalledScenario.final = Pending.
Proof.
  exact (proj1 (hanging_operation_blocks_process 2 StalledScenario.items
                  StalledScenario.processor 1 "b.jpg"
                  StalledScenario.schedule StalledScenario.final
                  eq_refl eq_refl eq_refl)).
Defined.

Lemma submit_prefix_closed_form {T R E} (concurrency : Z) (items : list T)
    (processor : nat → T → Behaviour R E) m :
  m ≤ length items →
  started (submit_prefix concurrency items processor m)
  = take (m `min` Z.to_nat concurrency) (tasks items) ∧
  activeCount (submit_prefix concurrency items processor m)
  = Z.of_nat (m `min` Z.to_nat concurrency).
Proof.
  induction m as [|m IH]; intros Hm; [done|].
  destruct (lookup_lt_is_Some_2 items m) as [x Hx]; [lia|].
  destruct IH as [Hs Ha]; [lia|].
  rewrite (submit_prefix_S _ _ _ _ _ Hx). unfold enqueue.
  destruct (activeCount _ <? concurrency)%Z eqn:Hlt.
  - apply Z.ltb_lt in Hlt. rewrite Ha in Hlt.
    rewrite run_started, run_activeCount, Hs, Ha.
    replace (S m `min` Z.to_nat concurrency) with (S m) by lia.
    replace (m `min` Z.to_nat concurrency) with m by lia.
    split; [|lia]. symmetry. apply take_S_r. by rewrite lookup_tasks, Hx.
  - apply Z.ltb_ge in Hlt. rewrite Ha in Hlt.
    unfold set_phase, set_queue. cbn [started activeCount]. rewrite Hs, Ha.
    by replace (S m `min` Z.to_nat concurrency)
      with (m `min` Z.to_nat concurrency) by lia.
Qed.

(** X4. What [items.map] leaves behind, for every limit [k]: the first
    [min(k, n)] operations have been called, in input order, the other
    thunks wait in the queue, in input order, and [activeCount] is
    [min(k, n)]; a limit below 0 counts as 0.  In particular a limit of at
    least [n] queues nothing. *)
Theorem map_starts_first_k {T R E} (concurrency : Z) (items : list T)
    (processor : nat → T → Behaviour R E) :
  let k := Z.to_nat concurrency in
  let st := submit concurrency items processor in
  started st = take k (tasks items) ∧
  queue st = drop k (tasks items) ∧
  activeCount st = Z.of_nat (k `min` length items) ∧
  (length items ≤ k → queue st = [] ∧ started st = tasks items).
Proof.
  simpl.
  destruct (submit_prefix_closed_form concurrency items processor
              (length items)) as [Hs Ha]; [lia|].
  rewrite submit_prefix_all in Hs, Ha.
  pose proof (Inv_order_all _ _ _ _ (Inv_submit concurrency items processor))
    as Hord.
  assert (Htake : take (length items `min` Z.to_nat concurrency) (tasks items)
                  = take (Z.to_nat concurrency) (tasks items)).
  { destruct (decide (Z.to_nat concurrency ≤ length items)).
    - by replace (length items `min` Z.to_nat concurrency)
        with (Z.to_nat concurrency) by lia.
    - rewrite !take_ge; [done| |]; rewrite length_tasks; lia. }
  rewrite Htake in Hs.
  assert (Hq : queue (submit concurrency items processor)
               = drop (Z.to_nat concurrency) (tasks items)).
  { rewrite Hs in Hord.
    rewrite <- (take_drop (Z.to_nat concurrency) (tasks items)) in Hord at 2.
    by apply app_inv_head in Hord. }
  split_and!; [done|done|rewrite Ha; f_equal; lia|].
  intros Hk. rewrite Hq, Hs.
  rewrite drop_ge, take_ge; [done| |]; rewrite length_tasks; lia.
Qed.

(** X5. The runner leaves no slot idle: for a limit [k ≥ 0], in every
    state the event loop can reach in which a thunk is still waiting, all
    [k] slots are taken. *)
Theorem no_idle_slot_while_queued {T R E} (concurrency : Z) (items : list T)
    (processor : nat → T → Behaviour R E) (sched : list Event)
    (st : State T R E) :
  (0 ≤ concurrency)%Z →
  execution concurrency items processor sched = Some st →
  queue st ≠ [] →
  activeCount st = concurrency.
Proof.
  intros Hk Hex Hq. pose proof (Inv_execution _ _ _ _ _ Hex) as HI.
  pose proof (inv_full _ _ _ _ _ HI Hq).
  pose proof (inv_bound _ _ _ _ _ HI). lia.
Qed.

Lemma no_idle_slot_while_queued_witness :
  activeCount (submit 2 Scenario.items Scenario.processor) = 2%Z.
Proof.
  exact (no_idle_slot_while_queued 2 Scenario.items Scenario.processor []
           (submit 2 Scenario.items Scenario.processor)
           ltac:(lia) eq_refl ltac:(discriminate)).
Defined.

(** X6. The array [results] is consistent at every moment, not only at the
    end: in every state the event loop can reach, slot [i] is empty as long
    as the closure of item [i] has not stored its outcome, and afterwards
    holds [items[i]] with the value or error of its own operation, that is
    the record with the value and no error after a fulfilment and the
    record with the error and no result after a throw or a rejection; the
    array never has more slots than there are items. *)
Theorem partial_results_consistent {T R E} (concurrency : Z) (items : list T)
    (processor : nat → T → Behaviour R E) (sched : list Event)
    (st : State T R E) (i : nat) (x : T) (p : Phase) :
  execution concurrency items processor sched = Some st →
  items !! i = Some x →
  phase st !! i = Some p →
  length (results st) ≤ length items ∧
  Js.array_get (results st) i
  = match p with
    | Recorded | Done => outcome_of processor i x
    | Unsubmitted | Queued | Running => None
    end ∧
  (∀ o, Js.array_get (results st) i = Some o → item o = x) ∧
  (p = Recorded ∨ p = Done →
   match processor i x with
   | Fulfils r =>
       Js.array_get (results st) i = Some (mkOutcome x (Some r) None)
   | Throws e | Rejects e =>
       Js.array_get (results st) i = Some (mkOutcome x None (Some e))
   | Hangs => False
   end).
Proof.
  intros Hex Hx Hp. pose proof (Inv_execution _ _ _ _ _ Hex) as HI.
  pose proof (inv_res _ _ _ _ _ HI i x p Hx Hp) as Hres.
  assert (Hget : Js.array_get (results st) i
                 = match p with
                   | Recorded | Done => outcome_of processor i x
                   | Unsubmitted | Queued | Running => None
                   end).
  { destruct p; try done; try (by destruct Hres);
      destruct Hres as (o & -> & Hget); done. }
  split_and!; [apply (inv_reslen _ _ _ _ _ HI)|done| |].
  - intros o Ho. rewrite Hget in Ho.
    destruct p; try done; unfold outcome_of in Ho;
      destruct (processor i x); by simplify_eq.
  - intros Hrec.
    assert (∃ o, outcome_of processor i x = Some o ∧
                 Js.array_get (results st) i = Some o) as (o & Ho & Hgo)
      by (by destruct Hrec as [-> | ->]).
    apply outcome_of_spelled in Ho. rewrite Hgo.
    destruct (processor i x); by subst.
Qed.

Lemma partial_results_consistent_witness :
  Js.array_get (results StalledScenario.final) 1 = None.
Proof.
  exact (proj1 (proj2 (partial_results_consistent 2 StalledScenario.items
                         StalledScenario.processor StalledScenario.schedule
                         StalledScenario.final 1 "b.jpg" Running
                         eq_refl eq_refl eq_refl))).
Defined.

(** ** The run logger *)

Section logger_facts.
Context {Meta : Type}.
Implicit Types (lg : Logger.Logger Meta) (entry : Logger.Entry Meta).

Lemma length_filter_split {A} (f : A → bool) (l : list A) :
  length (filter (λ a, f a = false) l) + length (filter (λ a, f a = true) l)
  = length l.
Proof.
  induction l as [|a l IH]; [done|].
  rewrite !filter_cons. destruct (f a) eqn:Hf; repeat case_decide;
    try done; simpl; lia.
Qed.

(** X7. The summary [save] writes counts every entry once: [successful]
    plus [failed] is [totalImages], which is the number of [log] calls.  A
    call of [log] appends its entry, with its timestamp, after the earlier
    ones, adds its processing time to the sum, and adds one to [failed]
    when the entry has a non-empty error text and to [successful]
    otherwise, so an entry whose error text is empty counts as
    successful. *)
Theorem summary_counts_every_entry_once lg entry (now : string) :
  let before := Logger.summary lg in
  let after := Logger.summary (Logger.log entry now lg) in
  Logger.successful before + Logger.failed before
  = Logger.totalImages before ∧
  Logger.totalImages after = S (Logger.totalImages before) ∧
  Logger.summary_logs after
  = Logger.summary_logs before ++ [Logger.mkLogEntry now entry] ∧
  Logger.averageProcessingTime after
  = ((Logger.averageProcessingTime before).1
     + Logger.processingTime entry,
     S (Logger.averageProcessingTime before).2)%Z ∧
  (Logger.failed after, Logger.successful after)
  = match Logger.error entry with
    | Some (String _ _) =>
        (S (Logger.failed before), Logger.successful before)
    | Some EmptyString | None =>
        (Logger.failed before, S (Logger.successful before))
    end.
Proof.
  simpl. split_and!.
  - apply length_filter_split.
  - rewrite length_app. simpl. lia.
  - done.
  - rewrite foldl_snoc, length_app. simpl. f_equal. lia.
  - rewrite !filter_app, !length_app, !filter_cons, !filter_nil.
    assert (Hh : Logger.has_error (Logger.mkLogEntry now entry)
                 = match Logger.error entry with
                   | Some (String _ _) => true
                   | _ => false
                   end).
    { unfold Logger.has_error. simpl.
      by destruct (Logger.error entry) as [[|]|]. }
    destruct (Logger.error entry) as [[|]|];
      repeat case_decide; try congruence; simpl; f_equal; lia.
Qed.

End logger_facts.



Example log_file_name :
  Logger.logPath
    (Logger.constructor (Meta:=unit) (String.concat "/")
       "2025-06-01T10:20:30.456Z" "/photos")
  = "/photos/logs/caption-log-2025-06-01T10-20-30-456Z.json".
Proof. reflexivity. Qed.

(** ** Finding the files *)

Lemma ends_with_unfold (suffix s : string) :
  Main.ends_with suffix s
  = if String.eqb s suffix then true
    else match s with
         | EmptyString => false
         | String _ rest => Main.ends_with suffix rest
         end.
Proof. by destruct s. Qed.

Lemma ends_with_spec (suffix s : string) :
  Main.ends_with suffix s = true ↔ ∃ stem, s = stem +:+ suffix.
Proof.
  split.
  - induction s as [|c s IH]; rewrite ends_with_unfold;
      destruct (String.eqb _ suffix) eqn:He; try done.
    + apply String.eqb_eq in He as <-. intros _. by exists "".
    + apply String.eqb_eq in He as <-. intros _. by exists "".
    + intros [stem ->]%IH. by exists (String c stem).
  - intros [stem ->]. induction stem as [|c stem IH];
      rewrite ends_with_unfold.
    + by rewrite String.eqb_refl.
    + destruct (String.eqb _ suffix); [done|]. exact IH.
Qed.

Lemma lower_string_app (a b : string) :
  Main.lower_string (a +:+ b) = Main.lower_string a +:+ Main.lower_string b.
Proof. induction a as [|c a IH]; simpl; [done|]. by rewrite IH. Qed.

Lemma lower_string_split (s a b : string) :
  Main.lower_string s = a +:+ b →
  ∃ s1 s2, s = s1 +:+ s2 ∧ Main.lower_string s1 = a ∧ Main.lower_string s2 = b.
Proof.
  revert s. induction a as [|c a IH]; intros s Hs.
  - by exists "", s.
  - destruct s as [|c' s]; [done|].
    change (String (Main.lower c') (Main.lower_string s)
            = String c (a +:+ b)) in Hs.
    injection Hs as Hc Hrest.
    destruct (IH s Hrest) as (s1 & s2 & -> & <- & <-).
    exists (String c' s1), s2. simpl. by rewrite Hc.
Qed.

Lemma is_jpeg_spec (file : string) :
  Main.is_jpeg file = true ↔
  ∃ stem ext, file = stem +:+ ext ∧
              (Main.lower_string ext = ".jpg" ∨ Main.lower_string ext = ".jpeg").
Proof.
  unfold Main.is_jpeg. rewrite orb_true_iff, !ends_with_spec. split.
  - intros [[stem Hs] | [stem Hs]];
      apply lower_string_split in Hs as (s1 & s2 & -> & _ & Hext); eauto.
  - intros (stem & ext & -> & [Hext | Hext]); [left|right];
      exists (Main.lower_string stem); by rewrite lower_string_app, Hext.
Qed.

(** X9. [findJpegFiles] returns, in directory order, the path below the
    input directory of exactly those names that end with [.jpg] or [.jpeg]
    in any mix of upper and lower case, and of no other name.  When the
    directory cannot be listed, the code [ENOENT] becomes the error that
    asks to create the input directory, and any other failure is passed on
    unchanged. *)
Theorem findJpegFiles_selects_jpeg_names
    (path_join : list string → string) (cwd : string) (files : list string) :
  (∃ kept,
     Main.findJpegFiles path_join cwd (Main.Listing files)
     = Effect.Ok ((λ file, path_join [Main.INPUT_DIR path_join cwd; file])
                  <$> kept) ∧
     kept `sublist_of` files ∧
     ∀ file, file ∈ kept ↔
       file ∈ files ∧
       ∃ stem ext, file = stem +:+ ext ∧
         (Main.lower_string ext = ".jpg" ∨ Main.lower_string ext = ".jpeg")) ∧
  (∀ error,
     Main.findJpegFiles path_join cwd (Main.ReaddirError error (Some "ENOENT"))
     = Effect.Throw
         (Effect.new_Error ("Input directory not found. Please create: " +:+
                            path_join [cwd; "input"]))) ∧
  (∀ error code, code ≠ Some "ENOENT" →
     Main.findJpegFiles path_join cwd (Main.ReaddirError error code)
     = Effect.Throw error).
Proof.
  split_and!.
  - exists (filter (λ file, Main.is_jpeg file = true) files). split_and!.
    + done.
    + apply sublist_filter.
    + intros file. rewrite list_elem_of_filter, is_jpeg_spec. tauto.
  - done.
  - intros error code Hcode. simpl. by rewrite bool_decide_eq_false_2.
Qed.

Example findJpegFiles_listing :
  Main.findJpegFiles (String.concat "/") "/photos"
    (Main.Listing ["a.JPG"; "notes.txt"; "b.jpeg"; "jpg"; "c.jpg.bak";
                   ".jpg"; "d.Jpeg"])
  = Effect.Ok ["/photos/input/a.JPG"; "/photos/input/b.jpeg";
               "/photos/input/.jpg"; "/photos/input/d.Jpeg"].
Proof. reflexivity. Qed.

(** ** Resizing *)

(** X10. [resizeImage] never asks for an enlargement and only asks for a
    smaller image when one side exceeds the limit: the options always say
    [inside] and [withoutEnlargement], the target box is the square of the
    limit when the longer side is above the limit and is left out
    otherwise, and the quality is 70.  An image whose width or height is
    missing or 0 is refused with [Unable to get image dimensions] and
    nothing is encoded; a failure to read the dimensions is passed on. *)
Theorem resizeImage_requests {Buffer : Type}
    (sharp_metadata : string → Effect.result ImageResize.Dimensions)
    (sharp_jpeg : string → ImageResize.ResizeOptions → Z →
                  Effect.result Buffer)
    (inputPath : string) (maxDimension : Z) :
  (∀ e, sharp_metadata inputPath = Effect.Throw e →
     ImageResize.resizeImage sharp_metadata sharp_jpeg inputPath maxDimension
     = Effect.Throw e) ∧
  (∀ d, sharp_metadata inputPath = Effect.Ok d →
     ImageResize.width d = None ∨ ImageResize.width d = Some 0%Z ∨
     ImageResize.height d = None ∨ ImageResize.height d = Some 0%Z →
     ImageResize.resizeImage sharp_metadata sharp_jpeg inputPath maxDimension
     = Effect.Throw (Effect.new_Error "Unable to get image dimensions")) ∧
  (∀ w h,
     sharp_metadata inputPath
     = Effect.Ok (ImageResize.mkDimensions (Some w) (Some h)) →
     w ≠ 0%Z → h ≠ 0%Z →
     ∃ options,
       ImageResize.resizeImage sharp_metadata sharp_jpeg inputPath
         maxDimension
       = sharp_jpeg inputPath options 70%Z ∧
       ImageResize.fit options = "inside" ∧
       ImageResize.withoutEnlargement options = true ∧
       ((w `max` h ≤ maxDimension)%Z →
        ImageResize.box_width options = None ∧
        ImageResize.box_height options = None) ∧
       ((maxDimension < w `max` h)%Z →
        ImageResize.box_width options = Some maxDimension ∧
        ImageResize.box_height options = Some maxDimension)).
Proof.
  unfold ImageResize.resizeImage. split_and!.
  - by intros e ->.
  - intros [w h] -> Hd. simpl in *.
    destruct Hd as [-> | [-> | [-> | ->]]]; simpl; try done;
      by rewrite orb_true_r.
  - intros w h -> Hw Hh. simpl.
    apply Z.eqb_neq in Hw, Hh. rewrite Hw, Hh. simpl.
    eexists. split; [done|]. unfold ImageResize.resizeOptions.
    destruct (maxDimension <? w)%Z eqn:H1, (maxDimension <? h)%Z eqn:H2;
      simpl; rewrite ?Z.ltb_lt, ?Z.ltb_ge in *;
      split_and!; try done; intros; lia.
Qed.

(** ** Asking for the caption *)

(** X11. Every failure of [generateCaption] is an [Error] whose message
    starts with [Failed to generate caption: ].  A rejected request is
    wrapped with its own message; a response without a first choice,
    without a message, or with a missing or empty content gives
    [Failed to generate caption: No caption generated], because the error
    thrown inside the [try] block goes through the same handler; and a
    non-empty content is returned trimmed. *)
Theorem generateCaption_wraps_failures
    (heredoc : list string → list string → string) {Buffer : Type}
    (base64 : Buffer → string)
    (create : CaptionGenerator.Request → Effect.result (list CaptionCall.Choice))
    (trim : string → string)
    (g : CaptionGenerator.Generator) (imageBuffer : Buffer)
    (existingMetadata : option CaptionGenerator.ExistingMetadata) :
  let sent :=
    CaptionGenerator.request heredoc base64 g imageBuffer existingMetadata in
  let answer :=
    CaptionCall.generateCaption heredoc base64 create trim g imageBuffer
      existingMetadata in
  (∀ e, create sent = Effect.Throw e →
     answer = Effect.Throw
                (Effect.new_Error
                   ("Failed to generate caption: " +:+
                    (if Effect.is_Error e then Effect.message e
                     else Effect.as_string e)))) ∧
  (∀ choices, create sent = Effect.Ok choices →
     CaptionCall.first_content choices = None ∨
     CaptionCall.first_content choices = Some "" →
     answer = Effect.Throw
                (Effect.new_Error
                   "Failed to generate caption: No caption generated")) ∧
  (∀ choices c, create sent = Effect.Ok choices →
     CaptionCall.first_content choices = Some c → c ≠ "" →
     answer = Effect.Ok (trim c)) ∧
  (∀ e, answer = Effect.Throw e →
     Effect.is_Error e = true ∧
     ∃ detail, Effect.message e = "Failed to generate caption: " +:+ detail).
Proof.
  simpl. unfold CaptionCall.generateCaption, CaptionCall.generateCaption_try.
  split_and!.
  - by intros e ->.
  - intros choices -> [-> | ->]; done.
  - intros choices c -> -> Hc. by destruct c.
  - intros e.
    destruct (create _) as [choices|e0];
      [destruct (CaptionCall.first_content choices) as [[|]|]|];
      intros [= <-]; simpl; eauto.
Qed.

(** ** Reading the record *)

Section record_facts.
Import Effect Json ImageProcessor.
Variable subprocess : call → result string.
Variable JSON_parse : string → result json.

Lemma readImageMetadata_of_parse (imagePath stdout : string)
    (fields : list (string * json)) (rest : list json) (tr : list call) :
  subprocess (mkCall exiftool ["-j"; imagePath]) = Ok stdout →
  JSON_parse stdout = Ok (JArr (JObj fields :: rest)) →
  readImageMetadata subprocess JSON_parse imagePath tr
  = (match ExifMetadataSchema_parse (JObj fields) with
     | Ok m => Ok m
     | Throw _ => Ok empty
     end, tr ++ [mkCall exiftool ["-j"; imagePath]]).
Proof.
  intros Hs Hj.
  unfold readImageMetadata, readImageMetadata_try, try_catch, execFileAsync.
  unfold mbind, io_mbind, io_bind, lift. rewrite Hs, Hj.
  generalize ExifMetadataSchema_parse. intros parse. simpl.
  by destruct (parse (JObj fields)).
Qed.

(** X12. One ill-typed caption field costs the whole context: when the
    first record printed by the tool holds a value that is not a string
    under [Caption-Abstract], [Description] or [ImageDescription] (a
    description that the tool printed as a number, say),
    [readImageMetadata] returns the empty mapping, whatever the other
    fields hold. *)
Theorem ill_typed_field_discards_metadata (imagePath stdout : string)
    (fields : list (string * json)) (rest : list json) (tr : list call)
    (k : string) (v : json) :
  subprocess (mkCall exiftool ["-j"; imagePath]) = Ok stdout →
  JSON_parse stdout = Ok (JArr (JObj fields :: rest)) →
  k ∈ ["Caption-Abstract"; "Description"; "ImageDescription"] →
  field k fields = Some v →
  (∀ s, v ≠ JStr s) →
  readImageMetadata subprocess JSON_parse imagePath tr
  = (Ok empty, tr ++ [mkCall exiftool ["-j"; imagePath]]).
Proof.
  intros Hs Hj Hk Hv Hnot.
  rewrite (readImageMetadata_of_parse _ _ _ _ _ Hs Hj).
  assert (Hbad : parse_string (field k fields) = Throw zod_error).
  { rewrite Hv. destruct v; try done. by destruct (Hnot s). }
  assert (ExifMetadataSchema_parse (JObj fields) = Throw zod_error) as ->;
    [|done].
  unfold ExifMetadataSchema_parse.
  repeat (apply elem_of_cons in Hk as [-> | Hk]); [| | |by inversion Hk];
    rewrite Hbad;
    repeat match goal with
           | |- context [match ?r with Ok _ => _ | Throw _ => _ end] =>
               destruct r
           end; done.
Qed.

(** X13. When the first record passes the schema, [readImageMetadata]
    returns it and ignores the records after it: each of the three caption
    fields is the string of the record, or is missing where the record has
    none; the keyword fields are the string or the strings of the record;
    and the properties the schema does not declare are all kept, and only
    they, beside the declared ones. *)
Theorem readImageMetadata_reads_first_record (imagePath stdout : string)
    (fields : list (string * json)) (rest : list json) (tr : list call)
    (m : ExifMetadata) :
  subprocess (mkCall exiftool ["-j"; imagePath]) = Ok stdout →
  JSON_parse stdout = Ok (JArr (JObj fields :: rest)) →
  ExifMetadataSchema_parse (JObj fields) = Ok m →
  readImageMetadata subprocess JSON_parse imagePath tr
  = (Ok m, tr ++ [mkCall exiftool ["-j"; imagePath]]) ∧
  JStr <$> Caption_Abstract m = field "Caption-Abstract" fields ∧
  JStr <$> Description m = field "Description" fields ∧
  JStr <$> ImageDescription m = field "ImageDescription" fields ∧
  (∀ s, Keywords m = Some (TagString s) ↔
        field "Keywords" fields = Some (JStr s)) ∧
  (∀ l, Keywords m = Some (TagArray l) ↔
        field "Keywords" fields = Some (JArr (JStr <$> l))) ∧
  (∀ kv, kv ∈ others m ↔
         kv ∈ fields ∧
         kv.1 ∉ ["Caption-Abstract"; "Description"; "ImageDescription";
                 "Keywords"; "Subject"]).
Proof.
  intros Hs Hj Hm. rewrite (readImageMetadata_of_parse _ _ _ _ _ Hs Hj), Hm.
  assert (Hstr : ∀ (v : option json) (o : option string),
    parse_string v = Ok o → JStr <$> o = v).
  { intros [[]|] o; simpl; intros; by simplify_eq. }
  assert (Hstrs : ∀ (l : list json) (ss : list string),
    parse_strings l = Ok ss → l = JStr <$> ss).
  { induction l as [|[] l IH]; intros ss; simpl; try done.
    - by intros [= <-].
    - destruct (parse_strings l) as [ss'|]; [|done].
      intros [= <-]. simpl. by rewrite (IH ss'). }
  assert (Hstrs' : ∀ ss : list string, parse_strings (JStr <$> ss) = Ok ss).
  { induction ss as [|s ss IH]; [done|].
    rewrite fmap_cons. cbn [parse_strings]. by rewrite IH. }
  unfold ExifMetadataSchema_parse in Hm.
  destruct (parse_string (field "Caption-Abstract" fields)) as [c|] eqn:Hc;
    [|done].
  destruct (parse_string (field "Description" fields)) as [d|] eqn:Hd;
    [|done].
  destruct (parse_string (field "ImageDescription" fields)) as [i|] eqn:Hi;
    [|done].
  destruct (parse_tags (field "Keywords" fields)) as [kw|] eqn:Hkw; [|done].
  destruct (parse_tags (field "Subject" fields)) as [sb|] eqn:Hsb; [|done].
  injection Hm as <-. simpl. split_and!; auto.
  - intros s. unfold parse_tags in Hkw.
    destruct (field "Keywords" fields) as [[]|]; simplify_eq/=;
      try (split; intros; by simplify_eq).
    destruct (parse_strings l); simplify_eq/=; split; intros; by simplify_eq.
  - intros l. unfold parse_tags in Hkw.
    destruct (field "Keywords" fields) as [[| | | |l'|]|] eqn:Hf;
      simplify_eq/=; try (split; intros; by simplify_eq).
    destruct (parse_strings l') as [ss|] eqn:Hl'; simplify_eq/=.
    apply Hstrs in Hl' as ->. split.
    + by intros [= ->].
    + intros [= H]. pose proof (Hstrs' ss) as H1.
      rewrite H, Hstrs' in H1. by injection H1 as ->.
  - intros kv. rewrite list_elem_of_filter. unfold declared.
    rewrite bool_decide_eq_false. tauto.
Qed.

End record_facts.

Lemma ill_typed_field_discards_metadata_witness :
  Effect.outcome
    (ImageProcessor.readImageMetadata
       (λ _, Effect.Ok "[{...}]")
       (λ _, Effect.Ok (Json.JArr
                          [Json.JObj PipelineScenario.numeric_description]))
       "a.jpg")
  = Effect.Ok ImageProcessor.empty.
Proof.
  unfold Effect.outcome.
  rewrite (ill_typed_field_discards_metadata
             (λ _, Effect.Ok "[{...}]")
             (λ _, Effect.Ok (Json.JArr
                                [Json.JObj
                                   PipelineScenario.numeric_description]))
             "a.jpg" "[{...}]" PipelineScenario.numeric_description [] []
             "Description" (Json.JNum 2024) eq_refl eq_refl
             ltac:(apply list_elem_of_In; simpl; auto) eq_refl
             ltac:(discriminate)).
  reflexivity.
Defined.

Lemma readImageMetadata_reads_first_record_witness :
  ImageProcessor.Description
    (ImageProcessor.mkExif None (Some "Pier") None
       (Some (ImageProcessor.TagArray ["sea"])) None
       [("SourceFile", Json.JStr "a.jpg")])
  = Some "Pier" ∧
  Json.JStr <$> Some "Pier"
  = Json.field "Description" PipelineScenario.tidy_record.
Proof.
  split; [reflexivity|].
  exact (proj1 (proj2 (proj2
           (readImageMetadata_reads_first_record
              (λ _, Effect.Ok "[{...}]")
              (λ _, Effect.Ok (Json.JArr
                                 [Json.JObj PipelineScenario.tidy_record]))
              "a.jpg" "[{...}]" PipelineScenario.tidy_record [] []
              (ImageProcessor.mkExif None (Some "Pier") None
                 (Some (ImageProcessor.TagArray ["sea"])) None
                 [("SourceFile", Json.JStr "a.jpg")])
              eq_refl eq_refl eq_refl)))).
Defined.

(** ** One image through the pipeline *)

Section pipeline_facts.
Import Effect ImageProcessor CaptionGenerator.
Variable path_join : list string → string.
Variable path_dirname path_basename : string → string.
Variable subprocess : call → result string.
Variable JSON_parse : string → result Json.json.
Variable heredoc : list string → list string → string.
Context {Buffer : Type}.
Variable base64 : Buffer → string.
Variable create : Request → result (list CaptionCall.Choice).
Variable trim : string → string.
Variable sharp_metadata : string → result ImageResize.Dimensions.
Variable sharp_jpeg : string → ImageResize.ResizeOptions → Z → result Buffer.
Variable stripMetadata : Buffer → result Buffer.
Variable startTime endTime : Z.
Variable g : Generator.
Variable imagePath : string.

Local Abbreviation read_call := (mkCall exiftool ["-j"; imagePath]).
Local Abbreviation write_call caption :=
  (mkCall exiftool
     (writeCaption_args path_join path_dirname path_basename imagePath
        caption)).
Local Abbreviation processImage :=
  (Main.processImage path_join path_dirname path_basename subprocess
     JSON_parse heredoc base64 create trim sharp_metadata sharp_jpeg
     stripMetadata startTime endTime g imagePath).

(** [readImageMetadata] always returns, after one call of the tool. *)
Lemma readImageMetadata_calls (tr : list call) :
  ∃ m, readImageMetadata subprocess JSON_parse imagePath tr
       = (Ok m, tr ++ [read_call]).
Proof.
  unfold readImageMetadata, readImageMetadata_try, try_catch, execFileAsync.
  unfold mbind, io_mbind, io_bind, lift.
  destruct (subprocess _) as [out|]; [|by eexists].
  destruct (JSON_parse out) as [raw|]; [|by eexists].
  destruct (first_or_empty raw) as [first|]; [|by eexists].
  destruct (ExifMetadataSchema_parse first); by eexists.
Qed.

(** The caption [processImage] asks for, once the metadata is read. *)
Definition caption_of (m : ExifMetadata) : result string :=
  match ImageResize.resizeImage sharp_metadata sharp_jpeg imagePath 1248 with
  | Throw e => Throw e
  | Ok resized =>
      match stripMetadata resized with
      | Throw e => Throw e
      | Ok stripped =>
          CaptionCall.generateCaption heredoc base64 create trim g stripped
            (Some (Index.existingMetadata m))
      end
  end.

Lemma processImage_try_cases (tr : list call) (m : ExifMetadata) :
  readImageMetadata subprocess JSON_parse imagePath tr
  = (Ok m, tr ++ [read_call]) →
  Main.processImage_try path_join path_dirname path_basename subprocess
    JSON_parse heredoc base64 create trim sharp_metadata sharp_jpeg
    stripMetadata startTime endTime g imagePath tr
  = match caption_of m with
    | Throw e => (Throw e, tr ++ [read_call])
    | Ok caption =>
        (match subprocess (write_call caption) with
         | Ok _ =>
             Ok (Main.mkProcessImageResult imagePath caption
                   (endTime - startTime)
                   (Main.resultMetadata (Index.existingMetadata m)))
         | Throw e => Throw (writeCaption_error e)
         end,
         (tr ++ [read_call]) ++ [write_call caption])
    end.
Proof.
  intros Hread. unfold Main.processImage_try, caption_of.
  unfold mbind, io_mbind, io_bind. rewrite Hread. unfold lift.
  destruct (ImageResize.resizeImage _ _ _ _) as [resized|]; [|done].
  destruct (stripMetadata resized) as [stripped|]; [|done].
  destruct (CaptionCall.generateCaption _ _ _ _ _ _ _) as [caption|]; [|done].
  unfold writeCaption, try_catch, execFileAsync, io_throw.
  unfold mbind, io_mbind, io_bind.
  by destruct (subprocess _).
Qed.

(** X14. A caption that [processImage] returns has been written: when
    [processImage] returns, the tool was started exactly twice, first to
    read the metadata of the image and then to write the returned caption
    into the three fields of the copy, and that second call succeeded; the
    result names the image it was asked about and its processing time is
    the difference of the two clock readings. *)
Theorem processImage_returns_written_caption (tr tr' : list call)
    (r : Main.ProcessImageResult) :
  processImage tr = (inr r, tr') →
  tr' = tr ++ [read_call; write_call (Main.caption r)] ∧
  (∃ stdout, subprocess (write_call (Main.caption r)) = Ok stdout) ∧
  Main.imagePath r = imagePath ∧
  Main.processingTime r = (endTime - startTime)%Z.
Proof.
  unfold Main.processImage. destruct (readImageMetadata_calls tr) as [m Hm].
  rewrite (processImage_try_cases tr m Hm).
  destruct (caption_of m) as [caption|]; [|done].
  destruct (subprocess (write_call caption)) as [out|] eqn:Hw; [|done].
  intros [= <- <-]. simpl. rewrite Hw, <- app_assoc. eauto.
Qed.

(** X15. A failure of [processImage] never leaves a half-written result
    behind unnoticed: the thrown object names the image and carries the
    difference of the two clock readings, and either the tool was only
    started to read the metadata, so that nothing was written, or the
    failure is the failure of the write itself, and then the text of the
    error starts with [Failed to write caption to image: ].  In particular
    nothing is written when the image cannot be resized or the caption
    cannot be generated. *)
Theorem processImage_failure_before_or_at_write (tr tr' : list call)
    (err : Main.ProcessImageError) :
  processImage tr = (inl err, tr') →
  Main.failed_imagePath err = imagePath ∧
  Main.failed_processingTime err = (endTime - startTime)%Z ∧
  (tr' = tr ++ [read_call] ∨
   ∃ caption e detail,
     tr' = tr ++ [read_call; write_call caption] ∧
     subprocess (write_call caption) = Throw e ∧
     Main.failed_error err = "Failed to write caption to image: " +:+ detail).
Proof.
  unfold Main.processImage. destruct (readImageMetadata_calls tr) as [m Hm].
  rewrite (processImage_try_cases tr m Hm).
  destruct (caption_of m) as [caption|].
  - destruct (subprocess (write_call caption)) as [out|e] eqn:Hw; [done|].
    intros [= <- <-]. simpl. split_and!; [done|done|]. right.
    exists caption, e. eexists. rewrite <- app_assoc. split_and!; done.
  - intros [= <- <-]. simpl. auto.
Qed.

End pipeline_facts.

Lemma processImage_returns_written_caption_witness :
  (PipelineScenario.run PipelineScenario.create).2
  = [Effect.mkCall "/opt/homebrew/bin/exiftool" ["-j"; "input/a.jpg"];
     Effect.mkCall "/opt/homebrew/bin/exiftool"
       ["-overwrite_original"; "-Caption-Abstract=A pier";
        "-Description=A pier"; "-ImageDescription=A pier"; "input/a.jpg";
        "-o"; "input/../output/a.jpg"]].
Proof.
  exact (proj1 (processImage_returns_written_caption
                  (String.concat "/") (λ _, "input") (λ _, "a.jpg")
                  PipelineScenario.subprocess PipelineScenario.JSON_parse
                  CaptionGenerator.interleave id PipelineScenario.create id
                  PipelineScenario.sharp_metadata PipelineScenario.sharp_jpeg
                  PipelineScenario.stripMetadata 1000 1250
                  PipelineScenario.generator "input/a.jpg" [] _
                  (Main.mkProcessImageResult "input/a.jpg" "A pier" 250 None)
                  eq_refl)).
Defined.

Lemma processImage_failure_before_or_at_write_witness :
  Main.failed_imagePath
    (Main.mkProcessImageError "input/a.jpg"
       "Failed to generate caption: 429 rate limit" 250)
  = "input/a.jpg" ∧
  (PipelineScenario.run PipelineScenario.create_fails).2
  = [Effect.mkCall "/opt/homebrew/bin/exiftool" ["-j"; "input/a.jpg"]].
Proof.
  split;
    [exact (proj1 (processImage_failure_before_or_at_write
                     (String.concat "/") (λ _, "input") (λ _, "a.jpg")
                     PipelineScenario.subprocess PipelineScenario.JSON_parse
                     CaptionGenerator.interleave id
                     PipelineScenario.create_fails id
                     PipelineScenario.sharp_metadata
                     PipelineScenario.sharp_jpeg
                     PipelineScenario.stripMetadata 1000 1250
                     PipelineScenario.generator "input/a.jpg" [] _ _
                     eq_refl))
    |reflexivity].
Defined.

(** ** From the metadata to the prompt *)

(** X16. How [processImage] of [src/index.ts] turns the metadata into
    context: the caption is the first of [Caption-Abstract], [Description]
    and [ImageDescription] that is present and not empty, and there is no
    caption when none is; a caption of the context is never the empty
    string, in the variant written with [??] either.  A non-empty
    [Keywords] string becomes a list of one tag, a [Keywords] array is
    taken as it is, and [Subject] is only looked at when [Keywords] is
    missing or an empty string. *)
Theorem context_from_metadata (metadata : ImageProcessor.ExifMetadata) :
  CaptionGenerator.caption (Index.existingMetadata metadata)
  = head (filter (λ s, s ≠ "")
            (omap id [ImageProcessor.Caption_Abstract metadata;
                      ImageProcessor.Description metadata;
                      ImageProcessor.ImageDescription metadata])) ∧
  CaptionGenerator.caption (Index.existingMetadata metadata) ≠ Some "" ∧
  CaptionGenerator.caption (IndexNullish.existingMetadata metadata)
  ≠ Some "" ∧
  CaptionGenerator.tags (Index.existingMetadata metadata)
  = match ImageProcessor.Keywords metadata with
    | Some (ImageProcessor.TagArray l) => Some l
    | Some (ImageProcessor.TagString (String a s)) => Some [String a s]
    | Some (ImageProcessor.TagString EmptyString) | None =>
        match ImageProcessor.Subject metadata with
        | Some (ImageProcessor.TagArray l) => Some l
        | Some (ImageProcessor.TagString (String a s)) => Some [String a s]
        | Some (ImageProcessor.TagString EmptyString) | None => None
        end
    end.
Proof.
  destruct metadata as [c d i k s o].
  unfold Index.existingMetadata, IndexNullish.existingMetadata,
    Index.context_of, Js.or_else, Js.nullish_else. simpl.
  split_and!.
  - by destruct c as [[|]|], d as [[|]|], i as [[|]|].
  - by destruct c as [[|]|], d as [[|]|], i as [[|]|].
  - by destruct c as [[|]|], d as [[|]|], i as [[|]|].
  - by destruct k as [[[|]|]|], s as [[[|]|]|].
Qed.

Section no_context_facts.
Import Effect ImageProcessor CaptionGenerator.
Variable subprocess : call → result string.
Variable JSON_parse : string → result Json.json.
Variable heredoc : list string → list string → string.
Context {Buffer : Type}.
Variable base64 : Buffer → string.

(** X17. Metadata that cannot be read means no context, not a failure:
    when the [try] block of [readImageMetadata] fails, the mapping it
    returns yields a context without caption and without tags, and the
    text of the request built from that context is the base prompt
    itself, in both variants of [processImage]. *)
Theorem unreadable_metadata_means_base_prompt (imagePath : string)
    (tr tr' : list call) (e : thrown) (g : Generator) (imageBuffer : Buffer) :
  readImageMetadata_try subprocess JSON_parse imagePath tr = (Throw e, tr') →
  ∃ metadata,
    readImageMetadata subprocess JSON_parse imagePath tr = (Ok metadata, tr') ∧
    Index.existingMetadata metadata = mkExisting None None ∧
    IndexNullish.existingMetadata metadata = mkExisting None None ∧
    text (request heredoc base64 g imageBuffer
            (Some (Index.existingMetadata metadata))) = prompt g ∧
    text (request heredoc base64 g imageBuffer
            (Some (IndexNullish.existingMetadata metadata))) = prompt g.
Proof.
  intros Htry. exists empty. split_and!; try done.
  unfold readImageMetadata, try_catch. by rewrite Htry.
Qed.

End no_context_facts.

Lemma unreadable_metadata_means_base_prompt_witness :
  ∃ metadata,
    ImageProcessor.readImageMetadata
      (λ _, Effect.Throw (Effect.new_Error "spawn ENOENT"))
      (λ _, Effect.Ok Json.JNull) "a.jpg" []
    = (Effect.Ok metadata,
       [Effect.mkCall ImageProcessor.exiftool ["-j"; "a.jpg"]]) ∧
    CaptionGenerator.text
      (CaptionGenerator.request CaptionGenerator.interleave id
         PipelineScenario.generator "bytes"
         (Some (Index.existingMetadata metadata)))
    = "Describe the photo.".
Proof.
  destruct (unreadable_metadata_means_base_prompt
              (λ _, Effect.Throw (Effect.new_Error "spawn ENOENT"))
              (λ _, Effect.Ok Json.JNull) CaptionGenerator.interleave id
              "a.jpg" [] _ _ PipelineScenario.generator "bytes" eq_refl)
    as (metadata & Hread & _ & _ & Htext & _).
  exists metadata. split; [exact Hread|exact Htext].
Defined.

(** ** Reporting the results *)

Section report_facts.
Variable clock : nat → string.
Implicit Types (t : Main.Tally).

Local Abbreviation Result :=
  (Outcome string Main.ProcessImageResult Main.ProcessImageError).

Lemma array_without_holes {A} (P : A → Prop) (l : list (option A)) :
  (∀ i s, l !! i = Some s → ∃ o, s = Some o ∧ P o) →
  ∃ outcomes, l = Some <$> outcomes ∧ ∀ o, o ∈ outcomes → P o.
Proof.
  induction l as [|s l IH]; intros Hsome.
  - exists []. split; [done|]. intros o Ho. by inversion Ho.
  - destruct (Hsome 0 s eq_refl) as (o & -> & Ho).
    destruct IH as (outcomes & -> & Hall).
    { intros i s' Hs'. by apply (Hsome (S i)). }
    exists (o :: outcomes). split; [done|].
    intros o' [-> | Ho']%elem_of_cons; auto.
Qed.

Lemma report_all (outcomes : list Result) t :
  (∀ o, o ∈ outcomes →
     is_Some (ParallelProcessor.result o) ∨ is_Some (ParallelProcessor.error o)) →
  ∃ t', Main.report clock t (Some <$> outcomes) = Some t' ∧
        Main.successCount t'
        = Main.successCount t
          + length (filter (λ o, Main.fulfilled o = true) outcomes) ∧
        Main.errorCount t'
        = Main.errorCount t
          + length (filter (λ o, Main.fulfilled o = false) outcomes) ∧
        length (Logger.logs (Main.logger t'))
        = length (Logger.logs (Main.logger t)) + length outcomes.
Proof.
  revert t. induction outcomes as [|o outcomes IH]; intros t Hall.
  - exists t. simpl. split_and!; [done|lia..].
  - destruct (IH (Main.report_one clock t o)) as (t' & Hrep & Hs & He & Hl).
    { intros o' Ho'. apply Hall. by right. }
    exists t'. rewrite fmap_cons. split; [exact Hrep|].
    rewrite Hs, He, Hl, !filter_cons. unfold Main.report_one, Main.fulfilled.
    destruct (Hall o) as [[r Hr] | [e Hee]]; [by left| |].
    + rewrite Hr. simpl. repeat case_decide; try done.
      rewrite length_app. simpl. lia.
    + rewrite Hee. destruct (ParallelProcessor.result o); simpl;
        repeat case_decide; try done; rewrite length_app; simpl; lia.
Qed.

(** X18. Every file is reported exactly once: on the array a [process]
    call resolves with, whatever the limit, the operation and the order of
    completion, the loop of [main] never meets a hole, each slot adds one
    to either [successCount] or [errorCount] and one entry to the logger,
    so the two counts add up to the number of files, which is also
    [totalImages] of the summary, and [successCount] is the number of
    slots that carry a result. *)
Theorem every_file_is_reported_once (concurrency : Z) (items : list string)
    (processor :
       nat → string → Behaviour Main.ProcessImageResult Main.ProcessImageError)
    (sched : list Event)
    (st : State string Main.ProcessImageResult Main.ProcessImageError)
    (v : list (option Result)) (fresh : Logger.Logger Main.ResultMetadata) :
  execution concurrency items processor sched = Some st →
  process_promise st = Fulfilled v →
  Logger.logs fresh = [] →
  ∃ t outcomes,
    v = Some <$> outcomes ∧
    Main.report clock (Main.mkTally fresh 0 0) v = Some t ∧
    Main.successCount t + Main.errorCount t = length items ∧
    Main.successCount t
    = length (filter (λ o, Main.fulfilled o = true) outcomes) ∧
    Logger.totalImages (Logger.summary (Main.logger t)) = length items.
Proof.
  intros Hex Hv Hfresh. pose proof (Inv_execution _ _ _ _ _ Hex) as HI.
  unfold process_promise in Hv.
  destruct (all_resolved st) eqn:Hall; [|done]. injection Hv as <-.
  destruct (Inv_resolved _ _ _ _ HI Hall) as (Hlen & _ & _ & Hslots).
  destruct (array_without_holes
              (λ o, is_Some (ParallelProcessor.result o) ∨
                    is_Some (ParallelProcessor.error o)) (results st))
    as (outcomes & Hres & Hall').
  { intros i s Hs. pose proof (lookup_lt_Some _ _ _ Hs) as Hi.
    rewrite Hlen in Hi.
    destruct (lookup_lt_is_Some_2 items i Hi) as [x Hx].
    destruct (Hslots i x Hx) as (o & Ho & _ & Hr).
    exists o. split; [congruence|]. unfold outcome_of in Ho.
    destruct (processor i x); simplify_eq/=; eauto. }
  assert (Hlo : length outcomes = length items)
    by (by rewrite <- Hlen, Hres, length_fmap).
  destruct (report_all outcomes (Main.mkTally fresh 0 0) Hall')
    as (t & Hrep & Hs & He & Hl).
  exists t, outcomes. simpl in *. rewrite Hres. split_and!; try done.
  - rewrite Hs, He. pose proof (length_filter_split Main.fulfilled outcomes). lia.
  - rewrite Hl, Hfresh. simpl. lia.
Qed.

End report_facts.

Lemma every_file_is_reported_once_witness :
  ∃ t, Main.report (λ _, "2025-06-01T10:20:30.456Z")
         (Main.mkTally (Logger.mkLogger [] "log.json") 0 0) ReportScenario.results
       = Some t ∧
       Main.successCount t + Main.errorCount t = 3.
Proof.
  destruct (every_file_is_reported_once (λ _, "2025-06-01T10:20:30.456Z") 2
              Scenario.items ReportScenario.processor Scenario.schedule
              (mkState 0 [] ReportScenario.results [Done; Done; Done]
                 [(0, "a.jpg"); (1, "b.jpg"); (2, "c.jpg")])
              ReportScenario.results (Logger.mkLogger [] "log.json")
              eq_refl eq_refl eq_refl)
    as (t & outcomes & _ & Hrep & Hsum & _).
  exists t. split; [exact Hrep|exact Hsum].
Defined.

(** X19. The count on the console and the summary in the log can differ:
    for a failed item whose error text is empty, the loop of [main] adds
    one to [errorCount], but the entry it logs has no error text, so the
    summary counts it as successful and [failed] stays as it was.  For a
    failed item with a non-empty error text both go up by one. *)
Theorem empty_error_text_counts_as_success (clock : nat → string)
    (t : Main.Tally) (item : string) (e : Main.ProcessImageError) :
  let t' := Main.report_one clock t (failure item e) in
  let before := Logger.summary (Main.logger t) in
  let after := Logger.summary (Main.logger t') in
  Main.errorCount t' = S (Main.errorCount t) ∧
  Main.successCount t' = Main.successCount t ∧
  (Main.failed_error e = "" →
   Logger.failed after = Logger.failed before ∧
   Logger.successful after = S (Logger.successful before)) ∧
  (Main.failed_error e ≠ "" →
   Logger.failed after = S (Logger.failed before) ∧
   Logger.successful after = Logger.successful before).
Proof.
  simpl.
  assert (Hh : Logger.has_error
                 (Logger.mkLogEntry (Main.now clock t)
                    (Main.error_entry item e))
               = Js.truthy (Main.failed_error e)).
  { unfold Logger.has_error. simpl. by destruct (Main.failed_error e). }
  split_and!; [done|done| |]; intros He;
    rewrite !filter_app, !length_app, !filter_cons, !filter_nil;
    destruct (Main.failed_error e); try done; simpl in Hh;
    repeat case_decide; try congruence; simpl; lia.
Qed.

(** X20. A tool that prints no record is not a failure: on the output
    [[]] both variants of [readImageMetadata] return the empty mapping
    through the fallback [{}] of the [try] block, and on the output [null]
    they return it through the handler, after the one call of the tool. *)
Theorem no_record_gives_empty_mapping
    (subprocess : Effect.call → Effect.result string)
    (JSON_parse : string → Effect.result Json.json)
    (imagePath stdout : string) (tr : list Effect.call) :
  subprocess (Effect.mkCall ImageProcessor.exiftool ["-j"; imagePath])
  = Effect.Ok stdout →
  JSON_parse stdout = Effect.Ok (Json.JArr []) ∨
  JSON_parse stdout = Effect.Ok Json.JNull →
  ImageProcessor.readImageMetadata subprocess JSON_parse imagePath tr
  = (Effect.Ok ImageProcessor.empty,
     tr ++ [Effect.mkCall ImageProcessor.exiftool ["-j"; imagePath]]) ∧
  ImageProcessorUntyped.readImageMetadata subprocess JSON_parse imagePath tr
  = (Effect.Ok (Json.JObj []),
     tr ++ [Effect.mkCall ImageProcessor.exiftool ["-j"; imagePath]]) ∧
  (JSON_parse stdout = Effect.Ok (Json.JArr []) →
   ImageProcessor.readImageMetadata_try subprocess JSON_parse imagePath tr
   = (Effect.Ok ImageProcessor.empty,
      tr ++ [Effect.mkCall ImageProcessor.exiftool ["-j"; imagePath]])) ∧
  (JSON_parse stdout = Effect.Ok Json.JNull →
   ∃ e, ImageProcessor.readImageMetadata_try subprocess JSON_parse
          imagePath tr
        = (Effect.Throw e,
           tr ++ [Effect.mkCall ImageProcessor.exiftool ["-j"; imagePath]])) ∧
  (JSON_parse stdout = Effect.Ok (Json.JArr []) →
   ImageProcessorUntyped.readImageMetadata_try subprocess JSON_parse
     imagePath tr
   = (Effect.Ok (Json.JObj []),
      tr ++ [Effect.mkCall ImageProcessor.exiftool ["-j"; imagePath]])) ∧
  (JSON_parse stdout = Effect.Ok Json.JNull →
   ∃ e, ImageProcessorUntyped.readImageMetadata_try subprocess JSON_parse
          imagePath tr
        = (Effect.Throw e,
           tr ++ [Effect.mkCall ImageProcessor.exiftool ["-j"; imagePath]])).
Proof.
  intros Hs Hj.
  unfold ImageProcessor.readImageMetadata,
    ImageProcessorUntyped.readImageMetadata,
    ImageProcessor.readImageMetadata_try,
    ImageProcessorUntyped.readImageMetadata_try,
    Effect.try_catch, ImageProcessor.execFileAsync, Effect.lift.
  unfold mbind, Effect.io_mbind, Effect.io_bind. rewrite Hs.
  destruct Hj as [-> | ->]; simpl; split_and!; try done; eauto.
Qed.

Lemma no_record_gives_empty_mapping_witness :
  Effect.outcome
    (ImageProcessor.readImageMetadata PipelineScenario.subprocess
       PipelineScenario.JSON_parse "input/a.jpg")
  = Effect.Ok ImageProcessor.empty.
Proof.
  unfold Effect.outcome.
  rewrite (proj1 (no_record_gives_empty_mapping PipelineScenario.subprocess
                    PipelineScenario.JSON_parse "input/a.jpg" "[]" []
                    eq_refl (or_introl eq_refl))).
  reflexivity.
Defined.
